(** * proxycfg.Manager (agent/proxycfg/manager.go): a shallow embedding

    The manager owns two registries behind one mutex:
    - [proxies : map[string]*state], the tracked watch state per proxy;
    - [watchers : map[string]map[uint64]chan *ConfigSnapshot].

    Go pointers and channels are modelled by handles into two heaps:
    watch states ([states], allocated by [newState]) and delivery channels
    ([chans], allocated by [make(chan *ConfigSnapshot, 1)]).  The stateCh
    signal channel only matters through being nil or not, and through its
    closing, which is recorded in the trace of external calls.  Every
    public method runs under [m.mu], so each is one atomic step of the
    state monad [M] below. *)

From stdpp Require Import base gmap strings list.

(** ** Data model *)

(** [structs.NodeService], restricted to the fields the manager reads
    plus the ones the watch state compares. *)
Record NodeService := mkNodeService {
  Kind : string;
  ID : string;
  Service : string;
  Port : nat
}.

(** [structs.ServiceKindConnectProxy] *)
Definition ServiceKindConnectProxy : string := "connect-proxy".

(** [ConfigSnapshot]: routed by [ProxyID] only; the rest is opaque. *)
Record ConfigSnapshot := mkConfigSnapshot {
  ProxyID : string;
  snap_serial : nat
}.

(** A buffered Go channel: its queued values and whether it is closed. *)
Record chan_state := mkChan {
  ch_buf : list ConfigSnapshot;
  ch_closed : bool
}.

(** The per-proxy watch [state] (external collaborator, proxycfg/state.go):
    what it was built from, whether [Close] / a successful [Watch] ran on
    it, and what [CurrentSnapshot] returns. *)
Record state := mkState {
  ws_ns : NodeService;
  ws_token : string;
  ws_closed : bool;
  ws_started : bool;
  ws_snap : option ConfigSnapshot
}.

(** Calls the manager makes to its collaborators, in order. *)
Inductive event :=
| EvNotify                 (** m.cfg.State.Notify(stateCh) *)
| EvStopNotify             (** m.cfg.State.StopNotify(stateCh) *)
| EvCloseStateCh           (** close(m.stateCh) *)
| EvNewState (h : nat)     (** newState(ns, token) returned state h *)
| EvStateWatch (h : nat)   (** state.Watch() called on h *)
| EvStateClose (h : nat)   (** state.Close() called on h *)
| EvGo (h : nat)           (** forwarding goroutine started for h *)
| EvLogErr (id : string)   (** Logger.Printf("[ERR] failed to watch ...") *)
| EvChanClose (c : nat).   (** close(ch) on a watcher channel *)

(** The [Manager] struct ([cfg] and [mu] carry no modelled state). *)
Record Manager := mkManager {
  stateCh : bool;                        (** m.stateCh != nil *)
  proxies : gmap string nat;             (** proxy ID -> state handle *)
  watchers : gmap string (gmap nat nat); (** proxy ID -> idx -> channel *)
  states : gmap nat state;
  next_state : nat;
  chans : gmap nat chan_state;
  next_chan : nat;
  trace : list event
}.

Definition set_stateCh (b : bool) (m : Manager) : Manager :=
  mkManager b (proxies m) (watchers m) (states m) (next_state m)
    (chans m) (next_chan m) (trace m).
Definition set_proxies (p : gmap string nat) (m : Manager) : Manager :=
  mkManager (stateCh m) p (watchers m) (states m) (next_state m)
    (chans m) (next_chan m) (trace m).
Definition set_watchers (w : gmap string (gmap nat nat)) (m : Manager) : Manager :=
  mkManager (stateCh m) (proxies m) w (states m) (next_state m)
    (chans m) (next_chan m) (trace m).
Definition set_states (s : gmap nat state) (n : nat) (m : Manager) : Manager :=
  mkManager (stateCh m) (proxies m) (watchers m) s n
    (chans m) (next_chan m) (trace m).
Definition set_chans (c : gmap nat chan_state) (n : nat) (m : Manager) : Manager :=
  mkManager (stateCh m) (proxies m) (watchers m) (states m) (next_state m)
    c n (trace m).
Definition add_event (e : event) (m : Manager) : Manager :=
  mkManager (stateCh m) (proxies m) (watchers m) (states m) (next_state m)
    (chans m) (next_chan m) (trace m ++ [e]).

(** [NewManager] with all [ManagerConfig] fields set. *)
Definition NewManager : Manager :=
  mkManager true ∅ ∅ ∅ 0 ∅ 0 [].

(** Errors: [ErrStopped], and the errors of [newState] and [state.Watch]. *)
Inductive error := ErrStopped | ErrNewState | ErrWatch.

(** ** A state monad over the manager (the body of one locked section) *)

Definition M (A : Type) : Type := Manager → A * Manager.

Global Instance M_ret : MRet M := λ A x m, (x, m).
Global Instance M_bind : MBind M := λ A B f c m, let '(x, m') := c m in f x m'.

Definition get : M Manager := λ m, (m, m).
Definition modify (f : Manager → Manager) : M unit := λ m, (tt, f m).
Definition emit (e : event) : M unit := modify (add_event e).
Definition skip : M unit := mret tt.

Fixpoint forM_ {A} (l : list A) (f : A → M unit) : M unit :=
  match l with
  | [] => skip
  | x :: l' => f x ;; forM_ l' f
  end.

(** ** The manager's methods *)

Section ManagerOps.

(** The watch-state contract (proxycfg/state.go is not part of this
    source): [state.Changed], whether [newState] fails, and whether
    [state.Watch] fails to start the stream, are left arbitrary. *)
Variable Changed : state → NodeService → string → bool.
Variable newState_fails : NodeService → string → bool.
Variable watch_fails : state → bool.

(** Go's [range] over a map visits its entries in an unspecified order:
    each loop below ranges over [range_order (map_to_list _)]. *)
Variable range_order : ∀ A, list A → list A.
Arguments range_order {A} _.

Definition update_state (f : state → state) (h : nat) : M unit :=
  modify (λ m, set_states (alter f h (states m)) (next_state m) m).

Definition close_st (st : state) : state :=
  mkState (ws_ns st) (ws_token st) true (ws_started st) (ws_snap st).
Definition start_st (st : state) : state :=
  mkState (ws_ns st) (ws_token st) (ws_closed st) true (ws_snap st).

(** [newState(ns, token)] on its success path: a fresh state. *)
Definition alloc_state (ns : NodeService) (token : string) : M nat :=
  m ← get;
  let h := next_state m in
  modify (set_states (<[h := mkState ns token false false None]> (states m)) (S h)) ;;
  emit (EvNewState h) ;;
  mret h.

(** [state.Close()] *)
Definition state_Close (h : nat) : M unit :=
  update_state close_st h ;; emit (EvStateClose h).

(** [state.Watch()]: start the snapshot stream, or fail. *)
Definition state_Watch (h : nat) : M (option error) :=
  m ← get;
  emit (EvStateWatch h) ;;
  match states m !! h with
  | Some st =>
      if watch_fails st then mret (Some ErrWatch)
      else update_state start_st h ;; mret None
  | None => mret (Some ErrWatch)
  end.

(** Lines 156-181 of [ensureProxyServiceLocked]: build, start, record. *)
Definition ensure_create (ns : NodeService) (token : string) : M (option error) :=
  if newState_fails ns token then mret (Some ErrNewState) else
  h ← alloc_state ns token;
  err ← state_Watch h;
  match err with
  | Some e => mret (Some e)
  | None =>
      modify (λ m, set_proxies (<[ID ns := h]> (proxies m)) m) ;;
      emit (EvGo h) ;;
      mret None
  end.

Definition ensureProxyServiceLocked (ns : NodeService) (token : string) : M (option error) :=
  m ← get;
  match proxies m !! ID ns with
  | Some h =>
      match states m !! h with
      | Some st =>
          if Changed st ns token
          then state_Close h ;; ensure_create ns token
          else mret None
      | None => ensure_create ns token (* a tracked handle is always allocated *)
      end
  | None => ensure_create ns token
  end.

Definition removeProxyServiceLocked (proxyID : string) : M unit :=
  m ← get;
  match proxies m !! proxyID with
  | None => skip
  | Some h =>
      state_Close h ;;
      modify (λ m, set_proxies (delete proxyID (proxies m)) m)
  end.

(** Channels: [make(chan *ConfigSnapshot, 1)], a buffered send, [close]. *)
Definition make_chan : M nat :=
  m ← get;
  let c := next_chan m in
  modify (set_chans (<[c := mkChan [] false]> (chans m)) (S c)) ;;
  mret c.

Definition chan_push (c : nat) (s : ConfigSnapshot) : M unit :=
  modify (λ m, set_chans
    (alter (λ ch, mkChan (ch_buf ch ++ [s]) (ch_closed ch)) c (chans m))
    (next_chan m) m).

Definition chan_close (c : nat) : M unit :=
  modify (λ m, set_chans
    (alter (λ ch, mkChan (ch_buf ch) true) c (chans m)) (next_chan m) m) ;;
  emit (EvChanClose c).

(** [select { case ch <- snap: case <-time.After(100ms): }]: the value is
    delivered when the one-slot buffer has room, else the send times out. *)
Definition try_send (c : nat) (snap : ConfigSnapshot) : M unit :=
  m ← get;
  match chans m !! c with
  | Some ch => if bool_decide (length (ch_buf ch) < 1) then chan_push c snap else skip
  | None => skip
  end.

Definition notify (snap : ConfigSnapshot) : M unit :=
  m ← get;
  match watchers m !! ProxyID snap with
  | None => skip
  | Some ws => forM_ (range_order (map_to_list ws)) (λ '(_, c), try_send c snap)
  end.

(** [state.CurrentSnapshot()] of the tracked state, if any. *)
Definition current_snapshot (m : Manager) (proxyID : string) : option ConfigSnapshot :=
  h ← proxies m !! proxyID; st ← states m !! h; ws_snap st.

(** The returned [CancelFunc] closes over [proxyID] and [idx]. *)
Definition CancelFunc : Type := (string * nat)%type.

(** [Watch] returns the channel handle and the cancel closure. *)
Definition Watch (proxyID : string) : M (nat * CancelFunc) :=
  c ← make_chan;
  m ← get;
  let ws := default ∅ (watchers m !! proxyID) in
  let idx := size ws in
  modify (set_watchers (<[proxyID := <[idx := c]> ws]> (watchers m))) ;;
  match current_snapshot m proxyID with
  | Some snap => chan_push c snap
  | None => skip
  end ;;
  mret (c, (proxyID, idx)).

Definition closeWatchLocked (proxyID : string) (watchIdx : nat) : M unit :=
  m ← get;
  match watchers m !! proxyID with
  | Some ws =>
      match ws !! watchIdx with
      | Some c =>
          let ws' := delete watchIdx ws in
          modify (set_watchers (<[proxyID := ws']> (watchers m))) ;;
          chan_close c ;;
          if bool_decide (size ws' = 0)
          then modify (λ m, set_watchers (delete proxyID (watchers m)) m)
          else skip
      | None => skip
      end
  | None => skip
  end.

(** Calling the [CancelFunc] returned by [Watch]. *)
Definition cancel (cf : CancelFunc) : M unit := closeWatchLocked cf.1 cf.2.

Definition Close : M (option error) :=
  m ← get;
  (if stateCh m then emit EvCloseStateCh ;; modify (set_stateCh false) else skip) ;;
  m ← get;
  forM_ (range_order (map_to_list (watchers m))) (λ '(proxyID, ws),
    forM_ (range_order (map_to_list ws)) (λ '(idx, _), closeWatchLocked proxyID idx)) ;;
  m ← get;
  forM_ (range_order (map_to_list (proxies m))) (λ '(proxyID, h),
    state_Close h ;; modify (λ m, set_proxies (delete proxyID (proxies m)) m)) ;;
  mret None.

(** The local registry as [m.cfg.State.Services()] reports it, each
    service paired with [m.cfg.State.ServiceToken(svcID)]. *)
Definition Registry : Type := gmap string (NodeService * string).

(** Body of the first loop of a pass (lines 104-121). *)
Definition ensure_service (entry : string * (NodeService * string)) : M unit :=
  let '(svcID, (svc, token)) := entry in
  if bool_decide (Kind svc ≠ ServiceKindConnectProxy) then skip else
  err ← ensureProxyServiceLocked svc token;
  match err with
  | Some _ => emit (EvLogErr (ID svc))
  | None => skip
  end.

(** Body of the second loop of a pass (lines 124-129). *)
Definition remove_if_absent (services : Registry) (entry : string * nat) : M unit :=
  let '(proxyID, _) := entry in
  match services !! proxyID with
  | Some _ => skip
  | None => removeProxyServiceLocked proxyID
  end.

(** One pass of the [for] loop of [Run] (lines 100-131). *)
Definition reconcile (services : Registry) : M unit :=
  forM_ (range_order (map_to_list services)) ensure_service ;;
  m ← get;
  forM_ (range_order (map_to_list (proxies m))) (remove_if_absent services).

(** What each receive on [stateCh] observes: a change signal, after
    which the registry is read again, or the channel closed by [Close]. *)
Inductive wake := WSignal (services : Registry) | WClosed.

Inductive run_result :=
| RunReturned (err : option error)  (** Run returned this error (or nil) *)
| RunBlocked.                       (** still looping, waiting on stateCh *)

Fixpoint run_loop (services : Registry) (wakes : list wake) : M run_result :=
  reconcile services ;;
  match wakes with
  | [] => mret RunBlocked
  | WClosed :: _ => mret (RunReturned None)
  | WSignal services' :: wakes' => run_loop services' wakes'
  end.

Definition Run (services : Registry) (wakes : list wake) : M run_result :=
  m ← get;
  if stateCh m then
    emit EvNotify ;;
    r ← run_loop services wakes;
    match r with
    | RunReturned _ => emit EvStopNotify
    | RunBlocked => skip
    end ;;
    mret r
  else mret (RunReturned (Some ErrStopped)).

(** Everything that can happen between two locked sections: the public
    calls, a forwarding goroutine's [notify], a reconciliation pass, a
    consumer receiving from its channel, and a watch state producing a
    new current snapshot. *)
Inductive op :=
| OWatch (proxyID : string)
| OCancel (cf : CancelFunc)
| ONotify (snap : ConfigSnapshot)
| OPass (services : Registry)
| OClose
| ORecv (c : nat)
| OSnap (h : nat) (snap : ConfigSnapshot).

Definition chan_recv (c : nat) : M unit :=
  modify (λ m, set_chans
    (alter (λ ch, mkChan (tail (ch_buf ch)) (ch_closed ch)) c (chans m))
    (next_chan m) m).

Definition exec_op (o : op) : M unit :=
  match o with
  | OWatch p => Watch p ;; skip
  | OCancel cf => cancel cf
  | ONotify snap => notify snap
  | OPass services => reconcile services
  | OClose => Close ;; skip
  | ORecv c => chan_recv c
  | OSnap h snap =>
      update_state (λ st, mkState (ws_ns st) (ws_token st) (ws_closed st)
                            (ws_started st) (Some snap)) h
  end.

Fixpoint exec_ops (os : list op) : M unit :=
  match os with
  | [] => skip
  | o :: os' => exec_op o ;; exec_ops os'
  end.

End ManagerOps.

(** ** Proof support *)

(** Running a monadic computation: unfold the monad and reduce. *)
Ltac run_M :=
  repeat (unfold mbind, M_bind, mret, M_ret, get, modify, emit, skip,
          set_stateCh, set_proxies, set_watchers, set_states, set_chans,
          add_event in *; simpl in *).

(** ** Predicates on manager states, and concrete scenarios *)

(** No proxy ID maps to an empty set of watchers. *)
Definition no_empty_watcher_sets (m : Manager) : Prop :=
  ∀ p ws, watchers m !! p = Some ws → ws ≠ ∅.

(** The watcher channel registered as [(proxyID, idx)], if any. *)
Definition watcher_chan (m : Manager) (proxyID : string) (idx : nat) : option nat :=
  watchers m !! proxyID ≫= λ ws, ws !! idx.

Definition closed_chan (ch : chan_state) : chan_state := mkChan (ch_buf ch) true.

(** A watch state is live once its stream started and until it is closed. *)
Definition live (st : state) : bool := ws_started st && negb (ws_closed st).

(** Every live watch state is the one tracked under its proxy ID. *)
Definition live_tracked (m : Manager) : Prop :=
  ∀ h st, states m !! h = Some st → live st = true →
          proxies m !! ID (ws_ns st) = Some h.

(** At most one live watch state per proxy ID. *)
Definition at_most_one_live (m : Manager) : Prop :=
  ∀ h1 h2 st1 st2, states m !! h1 = Some st1 → states m !! h2 = Some st2 →
    live st1 = true → live st2 = true → ID (ws_ns st1) = ID (ws_ns st2) → h1 = h2.

Definition web_sidecar : NodeService :=
  mkNodeService ServiceKindConnectProxy "web-sidecar" "web" 443.

(** A manager tracking "web-sidecar" (token "T1") as state 0. *)
Definition tracked_web : Manager :=
  (ensureProxyServiceLocked (λ _ _ _, false) (λ _ _, false) (λ _, false)
     web_sidecar "T1" NewManager).2.

(** Watch "svc-a" twice, cancel the first, watch twice more. *)
Definition watch_cancel_seq : M (list nat) :=
  r1 ← Watch "svc-a";
  r2 ← Watch "svc-a";
  cancel r1.2 ;;
  r3 ← Watch "svc-a";
  r4 ← Watch "svc-a";
  mret [r1.2.2; r2.2.2; r3.2.2; r4.2.2].

(** [c] changes the manager only within [R]. *)
Definition within (R : Manager → Manager → Prop) {A} (c : M A) : Prop :=
  ∀ m, R m (c m).2.

(** The watcher registry and the channels stay as they are. *)
Definition chan_frame (m m' : Manager) : Prop :=
  watchers m' = watchers m ∧ chans m' = chans m ∧ next_chan m' = next_chan m.

(** Between [m] and [m'], channel [c] was at most read from: it is
    neither closed nor sent to. *)
Definition drains (c : nat) (m m' : Manager) : Prop :=
  ∀ ch, chans m !! c = Some ch →
    ∃ ch', chans m' !! c = Some ch' ∧ ch_closed ch' = ch_closed ch ∧
           ch_buf ch' `suffix_of` ch_buf ch.

(** Channel [c] was allocated and no watcher entry refers to it. *)
Definition orphan (c : nat) (m : Manager) : Prop :=
  c < next_chan m ∧ ∀ p i, watcher_chan m p i ≠ Some c.

Definition orphan_step (c : nat) (m m' : Manager) : Prop :=
  orphan c m → orphan c m' ∧ drains c m m'.

(** The channel [Watch] allocates, holding the current snapshot if any. *)
Definition fresh_chan (cur : option ConfigSnapshot) : chan_state :=
  mkChan (match cur with Some snap => [snap] | None => [] end) false.

(** Every channel a watcher entry refers to has been allocated. *)
Definition chans_allocated (m : Manager) : Prop :=
  ∀ p i c, watcher_chan m p i = Some c → c < next_chan m.

(** Events other than the error log of the reconciliation loop. *)
Definition no_log (evs : list event) : Prop := ∀ k, EvLogErr k ∉ evs.

(** [k] is registered with kind connect-proxy. *)
Definition is_proxy_entry (services : Registry) (k : string) : bool :=
  match services !! k with
  | Some (svc, _) => bool_decide (Kind svc = ServiceKindConnectProxy)
  | None => false
  end.

(** Every registry entry is keyed by its own service identifier, as in
    the agent's local state. *)
Definition registry_wf (services : Registry) : bool :=
  bool_decide (map_Forall (λ k e, ID e.1 = k) services).

(** "web-sidecar" re-registered with the empty kind of a typical service. *)
Definition web_plain : NodeService :=
  mkNodeService "" "web-sidecar" "web" 443.

Definition retyped_registry : Registry := {[ "web-sidecar" := (web_plain, "T1") ]}.

(** A watch-state contract for concrete runs: the state counts as changed
    when the ACL token differs from the one it was built with. *)
Definition changed_by_token (st : state) (_ : NodeService) (token : string) : bool :=
  negb (String.eqb (ws_token st) token).

(** Two watchers of "svc-a" on a fresh manager. *)
Definition two_watchers : Manager :=
  ((Watch "svc-a" ;; Watch "svc-a") NewManager).2.

(** "web-sidecar" as a proxy and "db" as a typical service. *)
Definition mixed_registry : Registry :=
  {[ "web-sidecar" := (web_sidecar, "T1");
     "db" := (mkNodeService "" "db" "db" 3306, "T1") ]}.

(** The invariants above are decidable, so they can be checked on
    concrete states. *)
#[global] Instance no_empty_watcher_sets_dec (m : Manager) :
  Decision (no_empty_watcher_sets m).
Proof. change (Decision (map_Forall (λ _ ws, ws ≠ ∅) (watchers m))). apply _. Defined.

#[global] Instance live_tracked_dec (m : Manager) : Decision (live_tracked m).
Proof.
  change (Decision (map_Forall
    (λ h st, live st = true → proxies m !! ID (ws_ns st) = Some h) (states m))).
  apply _.
Defined.

#[global] Instance chans_allocated_dec (m : Manager) : Decision (chans_allocated m).
Proof.
  refine (match decide (map_Forall (λ _ ws, map_Forall (λ _ c, c < next_chan m) ws)
                          (watchers m)) with
          | left Hall => left _ | right Hn => right _ end).
  - intros p i c. unfold watcher_chan.
    destruct (watchers m !! p) as [ws|] eqn:Hw; simpl; [|discriminate].
    exact (Hall p ws Hw i c).
  - intros Hall. apply Hn. intros p ws Hw i c Hc. apply (Hall p i c).
    unfold watcher_chan. rewrite Hw. exact Hc.
Defined.

(** ** Invariants kept across operations *)

(** [ManagerConfig]: whether each of its fields is set (non-nil). *)
Record ManagerConfig := mkManagerConfig {
  Cache : bool;
  State : bool;
  Source : bool;
  Logger : bool
}.

(** [NewManager(cfg)]: the manager, or the error when a field is nil. *)
Definition NewManager_cfg (cfg : ManagerConfig) : option Manager * option string :=
  if negb (Cache cfg) || negb (State cfg) || negb (Source cfg) || negb (Logger cfg)
  then (None, Some "all ManagerConfig fields must be provided")
  else (Some NewManager, None).

(** The watcher channels a trace records as closed, in order. *)
Fixpoint chan_closes (tr : list event) : list nat :=
  match tr with
  | [] => []
  | EvChanClose c :: tr' => c :: chan_closes tr'
  | _ :: tr' => chan_closes tr'
  end.

(** How many times a trace records [close(m.stateCh)]. *)
Fixpoint stateCh_closes (tr : list event) : nat :=
  match tr with
  | [] => 0
  | EvCloseStateCh :: tr' => S (stateCh_closes tr')
  | _ :: tr' => stateCh_closes tr'
  end.

(** Channel safety: handles at or beyond [next_chan] are unallocated;
    every watcher entry refers to an allocated open channel and no two
    entries share one; the channels the trace records as closed are
    exactly the closed ones, each recorded once; [close(m.stateCh)] is
    recorded once exactly when [m.stateCh] is nil. *)
Record manager_ok (m : Manager) : Prop := {
  ok_fresh : ∀ c, next_chan m ≤ c → chans m !! c = None;
  ok_open : ∀ p i c, watcher_chan m p i = Some c →
    ∃ ch, chans m !! c = Some ch ∧ ch_closed ch = false;
  ok_inj : ∀ p i q j c, watcher_chan m p i = Some c → watcher_chan m q j = Some c →
    p = q ∧ i = j;
  ok_closes_nodup : NoDup (chan_closes (trace m));
  ok_closes : ∀ c, c ∈ chan_closes (trace m) ↔
    ∃ ch, chans m !! c = Some ch ∧ ch_closed ch = true;
  ok_stateCh : stateCh_closes (trace m) = if stateCh m then 0 else 1
}.

(** A step that keeps the watcher registry, which channels exist and
    which are closed, and the closing of [stateCh]. *)
Definition keeps (m m' : Manager) : Prop :=
  watchers m' = watchers m ∧ next_chan m' = next_chan m ∧
  (∀ c, ch_closed <$> chans m' !! c = ch_closed <$> chans m !! c) ∧
  chan_closes (trace m') = chan_closes (trace m) ∧
  stateCh m' = stateCh m ∧ stateCh_closes (trace m') = stateCh_closes (trace m).

(** A step that keeps the predicate [P] of the manager. *)
Definition preserves (P : Manager → Prop) (m m' : Manager) : Prop := P m → P m'.

(** A step that changes neither the watch states nor [proxies]. *)
Definition keeps_states (m m' : Manager) : Prop :=
  states m' = states m ∧ proxies m' = proxies m.

(** Events a reconciliation pass may record. *)
Definition pass_event (e : event) : Prop :=
  match e with
  | EvNotify | EvStopNotify | EvCloseStateCh | EvChanClose _ => False
  | _ => True
  end.

(** A step that only appends events satisfying [P] to the trace and
    keeps [stateCh]. *)
Definition appends (P : event → Prop) (m m' : Manager) : Prop :=
  stateCh m' = stateCh m ∧ ∃ evs, trace m' = trace m ++ evs ∧ Forall P evs.

(** The [select] of [notify] on one channel: the snapshot is queued when
    the one-slot buffer has room, else the send times out. *)
Definition offer (snap : ConfigSnapshot) (ch : chan_state) : chan_state :=
  if bool_decide (length (ch_buf ch) < 1) then mkChan (ch_buf ch ++ [snap]) (ch_closed ch)
  else ch.

(** Whether [ensureProxyServiceLocked] builds a new state: [ns.ID] is not
    tracked, or its state reports a change. *)
Definition rebuilds (Changed : state → NodeService → string → bool)
    (ns : NodeService) (token : string) (m : Manager) : bool :=
  match proxies m !! ID ns with
  | Some h =>
      match states m !! h with
      | Some st => Changed st ns token
      | None => true
      end
  | None => true
  end.


(** A configuration with every field set. *)
Definition full_config : ManagerConfig := mkManagerConfig true true true true.

(** A run mixing the operations: two watchers, a pass, a notify, a
    cancel and [Close]. *)
Definition sample_ops : list op :=
  [OWatch "svc-a"; OPass mixed_registry; ONotify (mkConfigSnapshot "svc-a" 1);
   OWatch "svc-a"; OCancel ("svc-a", 0); OClose].

(** A step inside the watch-state part of the manager: channels, watchers
    and [stateCh] as they were, and only pass events appended. *)
Definition pass_step (m m' : Manager) : Prop :=
  chan_frame m m' ∧ appends pass_event m m'.

(** ** Claims *)

(** C5: [removeProxyServiceLocked p] on a tracked [p] closes [p]'s watch
    state and deletes [p] from [proxies]; the watcher registry and every
    channel (so every delivery queue of [p]'s watchers) are untouched.
    On an untracked [p] it changes nothing. *)
Theorem removeProxyServiceLocked_frame (p : string) (m : Manager) :
  let m' := (removeProxyServiceLocked p m).2 in
  match proxies m !! p with
  | Some h =>
      proxies m' = delete p (proxies m) ∧
      states m' = alter close_st h (states m) ∧
      trace m' = trace m ++ [EvStateClose h] ∧
      watchers m' = watchers m ∧ chans m' = chans m ∧
      next_chan m' = next_chan m ∧ stateCh m' = stateCh m
  | None => m' = m
  end.
Proof.
  unfold removeProxyServiceLocked, state_Close, update_state. run_M.
  destruct (proxies m !! p) as [h|]; simpl; [|destruct m; reflexivity].
  repeat split; reflexivity.
Qed.

(** C7: cancelling the watcher [(proxyID, watchIdx)] removes exactly that
    entry and closes its channel; the proxy's entry leaves the outer map
    when its set becomes empty, so no empty set is ever kept.  Cancelling
    an entry that does not exist changes nothing. *)
Theorem closeWatchLocked_spec (proxyID : string) (watchIdx : nat) (m : Manager) :
  no_empty_watcher_sets m →
  let m' := (closeWatchLocked proxyID watchIdx m).2 in
  no_empty_watcher_sets m' ∧
  match watcher_chan m proxyID watchIdx with
  | Some c =>
      watcher_chan m' proxyID watchIdx = None ∧
      (∀ i, i ≠ watchIdx → watcher_chan m' proxyID i = watcher_chan m proxyID i) ∧
      (∀ q, q ≠ proxyID → watchers m' !! q = watchers m !! q) ∧
      chans m' !! c = closed_chan <$> chans m !! c ∧
      (∀ c', c' ≠ c → chans m' !! c' = chans m !! c') ∧
      proxies m' = proxies m ∧ states m' = states m
  | None => m' = m
  end.
Proof.
  intros Hinv. unfold no_empty_watcher_sets, watcher_chan, closeWatchLocked, chan_close in *. run_M.
  destruct (watchers m !! proxyID) as [ws|] eqn:Hw; simpl;
    [|split; [exact Hinv | destruct m; reflexivity]].
  destruct (ws !! watchIdx) as [c|] eqn:Hc; simpl;
    [|split; [exact Hinv | destruct m; reflexivity]].
  case_bool_decide as Hsz; run_M.
  - (* the set became empty: the outer entry goes *)
    split; [|split; [|split; [|split; [|split]]]].
    + intros q ws'. run_M. rewrite lookup_delete. case_decide; [discriminate|].
      rewrite lookup_insert_ne by congruence. apply Hinv.
    + by rewrite lookup_delete_eq.
    + intros i Hi. rewrite lookup_delete_eq. simpl.
      apply map_size_empty_iff in Hsz.
      assert (Hd : delete watchIdx ws !! i = None) by (rewrite Hsz; apply lookup_empty).
      rewrite lookup_delete_ne in Hd by congruence. by rewrite Hd.
    + intros q Hq. rewrite lookup_delete_ne by congruence.
      by rewrite lookup_insert_ne by congruence.
    + rewrite lookup_alter_eq; reflexivity.
    + split; [intros c' Hc'; by rewrite lookup_alter_ne|]. split; reflexivity.
  - split; [|split; [|split; [|split; [|split]]]].
    + intros q ws'. rewrite lookup_insert. case_decide as Hq.
      * intros [= <-] Hempty. apply Hsz. by rewrite Hempty.
      * apply Hinv.
    + rewrite lookup_insert_eq. simpl. apply lookup_delete_eq.
    + intros i Hi. rewrite lookup_insert_eq. simpl. by rewrite lookup_delete_ne.
    + intros q Hq. by rewrite lookup_insert_ne by congruence.
    + rewrite lookup_alter_eq; reflexivity.
    + split; [intros c' Hc'; by rewrite lookup_alter_ne|]. split; reflexivity.
Qed.

(** C4: [Watch p] always returns a channel and a cancel function (its type
    has no error).  The channel is fresh and holds exactly the current
    snapshot of the tracked state of [p] when there is one, and nothing
    otherwise; it is registered under the returned identifier. *)
Theorem Watch_immediate_delivery (proxyID : string) (m : Manager) :
  let '((c, cf), m') := Watch proxyID m in
  c = next_chan m ∧
  cf = (proxyID, size (default ∅ (watchers m !! proxyID))) ∧
  watcher_chan m' proxyID cf.2 = Some c ∧
  chans m' !! c =
    Some (mkChan (match current_snapshot m proxyID with
                  | Some snap => [snap]
                  | None => []
                  end) false).
Proof.
  unfold Watch, make_chan, chan_push, watcher_chan, current_snapshot. run_M.
  destruct (proxies m !! proxyID) as [h|]; simpl.
  - destruct (states m !! h) as [st|]; simpl.
    + destruct (ws_snap st) as [snap|]; run_M;
        (split; [reflexivity|]); (split; [reflexivity|]);
        (split; [rewrite lookup_insert_eq; simpl; by rewrite lookup_insert_eq|]).
      * rewrite lookup_alter_eq, lookup_insert_eq. reflexivity.
      * by rewrite lookup_insert_eq.
    + run_M. split; [reflexivity|]. split; [reflexivity|].
      split; [rewrite lookup_insert_eq; simpl; by rewrite lookup_insert_eq|].
      by rewrite lookup_insert_eq.
  - run_M. split; [reflexivity|]. split; [reflexivity|].
    split; [rewrite lookup_insert_eq; simpl; by rewrite lookup_insert_eq|].
    by rewrite lookup_insert_eq.
Qed.

(** The loop of [Run] only ever returns nil. *)
Lemma run_loop_never_stopped (Changed : state → NodeService → string → bool)
    (newState_fails : NodeService → string → bool) (watch_fails : state → bool)
    (range_order : ∀ A, list A → list A)
    (services : Registry) (wakes : list wake) (m : Manager) :
  (run_loop Changed newState_fails watch_fails range_order services wakes m).1
    ≠ RunReturned (Some ErrStopped).
Proof.
  revert services m.
  induction wakes as [|w wakes IH]; intros services m; simpl;
    unfold mbind, M_bind, mret, M_ret;
    destruct (reconcile _ _ _ _ _ _) as [[] m2]; [discriminate|].
  destruct w as [services'|]; [apply IH|discriminate].
Qed.

Lemma Run_by_stateCh (Changed : state → NodeService → string → bool)
    (newState_fails : NodeService → string → bool) (watch_fails : state → bool)
    (range_order : ∀ A, list A → list A)
    (services : Registry) (wakes : list wake) (m : Manager) :
  let '(r, m') := Run Changed newState_fails watch_fails range_order services wakes m in
  (stateCh m = false → r = RunReturned (Some ErrStopped) ∧ m' = m) ∧
  (stateCh m = true → r ≠ RunReturned (Some ErrStopped)).
Proof.
  unfold Run. run_M. destruct (stateCh m) eqn:Hs.
  - destruct (run_loop _ _ _ _ _ _ _) as [r m1] eqn:Hr.
    pose proof (run_loop_never_stopped Changed newState_fails watch_fails
                  range_order services wakes (add_event EvNotify m)) as Hloop.
    unfold add_event in Hloop. rewrite Hr in Hloop. simpl in Hloop.
    destruct r; run_M; (split; [discriminate|intros _; exact Hloop]).
  - split; [intros _; split; reflexivity|discriminate].
Qed.

Lemma forM_stateCh {A} (l : list A) (f : A → M unit) (x : Manager) :
  (∀ a y, stateCh (f a y).2 = stateCh y) → stateCh (forM_ l f x).2 = stateCh x.
Proof.
  intros Hf. revert x. induction l as [|a l IH]; intros x; [reflexivity|].
  simpl. unfold mbind, M_bind. specialize (Hf a x).
  destruct (f a x) as [[] y]. simpl in Hf. rewrite IH. exact Hf.
Qed.

Lemma closeWatchLocked_stateCh (p : string) (i : nat) (y : Manager) :
  stateCh (closeWatchLocked p i y).2 = stateCh y.
Proof.
  unfold closeWatchLocked, chan_close. run_M.
  destruct (watchers y !! p) as [ws|]; [|reflexivity].
  destruct (ws !! i); [|reflexivity]. run_M. case_bool_decide; reflexivity.
Qed.

(** After [Close], [stateCh] is nil. *)
Lemma Close_closes (range_order : ∀ A, list A → list A) (m : Manager) :
  stateCh (Close range_order m).2 = false.
Proof.
  unfold Close. run_M.
  destruct (stateCh m) eqn:Hs; run_M;
  (lazymatch goal with |- context [forM_ ?L ?f ?x] =>
     assert (H1 : stateCh (forM_ L f x).2 = stateCh x)
       by (apply forM_stateCh; intros [p ws] y; apply forM_stateCh;
           intros [i c] z; apply closeWatchLocked_stateCh);
     destruct (forM_ L f x) as [[] x1]; simpl in H1 end;
   lazymatch goal with |- context [forM_ ?L ?f ?x1] =>
     assert (H2 : stateCh (forM_ L f x1).2 = stateCh x1)
       by (apply forM_stateCh; intros [p h] y; reflexivity);
     destruct (forM_ L f x1) as [[] x2]; simpl in H2 end;
   simpl; congruence).
Qed.

(** C8: [Run] on a manager that [Close] has closed (its [stateCh] set to
    nil) returns [ErrStopped] and changes nothing; on a manager that was
    not closed ([stateCh] not nil), [Run] never returns [ErrStopped],
    whatever the registry and the wake-ups of its loop. *)
Theorem Run_stopped (Changed : state → NodeService → string → bool)
    (newState_fails : NodeService → string → bool) (watch_fails : state → bool)
    (range_order : ∀ A, list A → list A)
    (services : Registry) (wakes : list wake) :
  (∀ (close_order : ∀ A, list A → list A) (m0 : Manager),
     let m := (Close close_order m0).2 in
     Run Changed newState_fails watch_fails range_order services wakes m =
       (RunReturned (Some ErrStopped), m)) ∧
  (∀ m, stateCh m = true →
     (Run Changed newState_fails watch_fails range_order services wakes m).1
       ≠ RunReturned (Some ErrStopped)).
Proof.
  split.
  - intros close_order m0. cbv zeta.
    pose proof (Close_closes close_order m0) as Hc.
    pose proof (Run_by_stateCh Changed newState_fails watch_fails range_order
                  services wakes (Close close_order m0).2) as H.
    destruct (Run _ _ _ _ _ _ _) as [r m'].
    destruct (proj1 H Hc) as [-> ->]. reflexivity.
  - intros m Hs.
    pose proof (Run_by_stateCh Changed newState_fails watch_fails range_order
                  services wakes m) as H.
    destruct (Run _ _ _ _ _ _ _) as [r m']. exact (proj2 H Hs).
Qed.

(** ** Watch states: liveness *)

Lemma live_tracked_at_most_one (m : Manager) :
  live_tracked m → at_most_one_live m.
Proof.
  intros Hl h1 h2 st1 st2 H1 H2 L1 L2 Hid.
  pose proof (Hl _ _ H1 L1) as E1. pose proof (Hl _ _ H2 L2) as E2.
  rewrite Hid in E1. congruence.
Qed.

Lemma ensure_create_eq (newState_fails : NodeService → string → bool)
    (watch_fails : state → bool) (ns : NodeService) (token : string) (m : Manager) :
  ensure_create newState_fails watch_fails ns token m =
  if newState_fails ns token then (Some ErrNewState, m) else
  let h := next_state m in
  let st := mkState ns token false false None in
  if watch_fails st
  then (Some ErrWatch,
        mkManager (stateCh m) (proxies m) (watchers m) (<[h:=st]> (states m)) (S h)
          (chans m) (next_chan m) (trace m ++ [EvNewState h; EvStateWatch h]))
  else (None,
        mkManager (stateCh m) (<[ID ns := h]> (proxies m)) (watchers m)
          (<[h:=start_st st]> (states m)) (S h)
          (chans m) (next_chan m) (trace m ++ [EvNewState h; EvStateWatch h; EvGo h])).
Proof.
  unfold ensure_create, alloc_state, state_Watch, update_state. run_M.
  destruct (newState_fails ns token); [destruct m; reflexivity|].
  run_M. rewrite lookup_insert_eq. simpl.
  destruct (watch_fails _); run_M; rewrite <- !app_assoc; [reflexivity|].
  by rewrite alter_insert_eq.
Qed.

(** [ensure_create] keeps every live state tracked, provided no live state
    belongs to the proxy being created. *)
Lemma ensure_create_live_tracked (newState_fails : NodeService → string → bool)
    (watch_fails : state → bool) (ns : NodeService) (token : string) (m : Manager) :
  live_tracked m →
  (∀ h st, states m !! h = Some st → live st = true → ID (ws_ns st) ≠ ID ns) →
  live_tracked (ensure_create newState_fails watch_fails ns token m).2.
Proof.
  intros Hl Hfree. rewrite ensure_create_eq.
  destruct (newState_fails ns token); [exact Hl|]. simpl.
  destruct (watch_fails _); simpl; intros h' st' Hst Hlive; simpl in *.
  - rewrite lookup_insert in Hst. case_decide; [subst; injection Hst as <-; discriminate|].
    by apply Hl.
  - rewrite lookup_insert in Hst. case_decide as Hh.
    + subst. injection Hst as <-. simpl. apply lookup_insert_eq.
    + rewrite lookup_insert_ne; [by apply Hl|].
      intros Heq. by apply (Hfree h' st').
Qed.

(** C2: when [ns.ID] is tracked and its state reports no change,
    [ensureProxyServiceLocked] returns nil and leaves the manager as it
    was; when it reports a change, the first call the manager makes is
    [Close] on the old state, before any new state is constructed.  Every
    call keeps each live watch state tracked, hence at most one live
    watch state per proxy ID. *)
Theorem ensureProxyServiceLocked_replace
    (Changed : state → NodeService → string → bool)
    (newState_fails : NodeService → string → bool) (watch_fails : state → bool)
    (ns : NodeService) (token : string) (m : Manager) :
  live_tracked m →
  let '(err, m') := ensureProxyServiceLocked Changed newState_fails watch_fails ns token m in
  live_tracked m' ∧ at_most_one_live m' ∧
  ∀ h st, proxies m !! ID ns = Some h → states m !! h = Some st →
    (Changed st ns token = false → err = None ∧ m' = m) ∧
    (Changed st ns token = true →
       ∃ rest, trace m' = trace m ++ EvStateClose h :: rest).
Proof.
  intros Hl. unfold ensureProxyServiceLocked. run_M.
  destruct (proxies m !! ID ns) as [h|] eqn:Hp.
  2:{ assert (Hfree : ∀ h' st', states m !! h' = Some st' → live st' = true →
                       ID (ws_ns st') ≠ ID ns).
      { intros h' st' Hst Hlive Hid. pose proof (Hl _ _ Hst Hlive). congruence. }
      pose proof (ensure_create_live_tracked newState_fails watch_fails ns token m Hl Hfree)
        as Hpost.
      destruct (ensure_create _ _ _ _ m) as [err m'].
      split; [exact Hpost|split; [apply live_tracked_at_most_one, Hpost|]].
      intros h' st' Hh'. congruence. }
  destruct (states m !! h) as [st|] eqn:Hs.
  2:{ assert (Hfree : ∀ h' st', states m !! h' = Some st' → live st' = true →
                       ID (ws_ns st') ≠ ID ns).
      { intros h' st' Hst Hlive Hid. pose proof (Hl _ _ Hst Hlive). congruence. }
      pose proof (ensure_create_live_tracked newState_fails watch_fails ns token m Hl Hfree)
        as Hpost.
      destruct (ensure_create _ _ _ _ m) as [err m'].
      split; [exact Hpost|split; [apply live_tracked_at_most_one, Hpost|]].
      intros h' st' Hh' Hs'. injection Hh' as <-. congruence. }
  destruct (Changed st ns token) eqn:Hc.
  2:{ split; [exact Hl|split; [apply live_tracked_at_most_one, Hl|]].
      intros h' st' Hh' Hs'. injection Hh' as <-.
      rewrite Hs in Hs'. injection Hs' as <-. rewrite Hc.
      split; [intros _; split; [reflexivity|destruct m; reflexivity]|discriminate]. }
  unfold state_Close, update_state. run_M.
  match goal with |- context [ensure_create _ _ _ _ ?mc] => set (m_closed := mc) end.
  assert (Hlc : live_tracked m_closed).
  { intros h' st' Hst Hlive. simpl in *. rewrite lookup_alter in Hst.
    case_decide; [|by apply Hl].
    subst. rewrite Hs in Hst. injection Hst as <-. unfold live in Hlive. simpl in Hlive.
    by rewrite andb_false_r in Hlive. }
  assert (Hfree : ∀ h' st', states m_closed !! h' = Some st' → live st' = true →
                    ID (ws_ns st') ≠ ID ns).
  { intros h' st' Hst Hlive Hid. pose proof (Hlc _ _ Hst Hlive) as Ht.
    simpl in Ht. rewrite Hid, Hp in Ht. injection Ht as <-.
    simpl in Hst. rewrite lookup_alter_eq, Hs in Hst. injection Hst as <-.
    unfold live in Hlive. simpl in Hlive. by rewrite andb_false_r in Hlive. }
  pose proof (ensure_create_live_tracked newState_fails watch_fails ns token m_closed
                Hlc Hfree) as Hpost.
  pose proof (ensure_create_eq newState_fails watch_fails ns token m_closed) as Heq.
  destruct (ensure_create _ _ _ _ m_closed) as [err m'].
  split; [exact Hpost|split; [apply live_tracked_at_most_one, Hpost|]].
  intros h' st' Hh' Hs'. injection Hh' as <-. rewrite Hs in Hs'. injection Hs' as <-.
  rewrite Hc. split; [discriminate|intros _].
  destruct (newState_fails ns token);
    [|cbv zeta in Heq; destruct (watch_fails (mkState ns token false false None))];
    injection Heq as -> ->; simpl; rewrite <- ?app_assoc; eexists; reflexivity.
Qed.

(** ** Concrete scenarios *)

(** C3: "web-sidecar" is tracked, its state reports a change for token
    "T2", and [newState] fails: the call returns the error, the old state
    has been closed, and [proxies] still maps "web-sidecar" to it. *)
Theorem ensure_failure_keeps_closed_entry :
  let '(err, m') :=
    ensureProxyServiceLocked (λ _ _ _, true) (λ _ _, true) (λ _, false)
      web_sidecar "T2" tracked_web in
  proxies tracked_web !! "web-sidecar" = Some 0 ∧
  err = Some ErrNewState ∧
  proxies m' !! "web-sidecar" = Some 0 ∧
  option_map ws_closed (states m' !! 0) = Some true.
Proof. vm_compute. repeat split. Qed.

(** C6: on a fresh manager, the third and fourth registrations, with no
    cancellation between them, both get identifier 1 (as the second). *)
Theorem watch_ids_after_cancel :
  (watch_cancel_seq NewManager).1 = [0; 1; 1; 1].
Proof. vm_compute. reflexivity. Qed.

(** ** Frame reasoning: which parts of the manager a method may change *)

Section Within.
Context (R : Manager → Manager → Prop) `{!PreOrder R}.

Lemma within_ret {A} (x : A) : within R (mret x).
Proof. intros m. reflexivity. Qed.

Lemma within_get : within R get.
Proof. intros m. reflexivity. Qed.

Lemma within_bind {A B} (c : M A) (f : A → M B) :
  within R c → (∀ x, within R (f x)) → within R (c ≫= f).
Proof.
  intros Hc Hf m. unfold mbind, M_bind.
  specialize (Hc m). destruct (c m) as [x m1]. simpl in Hc.
  etrans; [exact Hc|apply Hf].
Qed.

(** A bind whose first step is [get] may use the state it reads. *)
Lemma within_get_bind {B} (f : Manager → M B) :
  (∀ m, R m (f m m).2) → within R (get ≫= f).
Proof. intros Hf m. apply Hf. Qed.

Lemma within_forM {A} (l : list A) (f : A → M unit) :
  (∀ x, x ∈ l → within R (f x)) → within R (forM_ l f).
Proof.
  induction l as [|x l IH]; intros Hf; simpl; [apply within_ret|].
  apply within_bind; [apply Hf; set_solver|intros []; apply IH].
  intros y Hy. apply Hf. set_solver.
Qed.
End Within.

Global Instance chan_frame_preorder : PreOrder chan_frame.
Proof.
  split; [intros m; repeat split|].
  intros m1 m2 m3 (?&?&?) (?&?&?). repeat split; congruence.
Qed.

(** [apply] a [within] lemma and solve its [PreOrder] side condition. *)
Ltac wapply H := apply H; try typeclasses eauto.

(** Run a [within] goal through binds and matches. *)
Ltac within_steps :=
  repeat match goal with
  | |- within _ get => wapply within_get
  | |- within _ (_ ≫= _) => wapply within_bind; [|intros ?]
  | |- within _ (mret _) => wapply within_ret
  | |- within _ skip => wapply within_ret
  | |- within _ (match ?x with _ => _ end) => destruct x
  | |- within _ (if ?b then _ else _) => destruct b
  end.

Lemma modify_chan_frame (f : Manager → Manager) :
  (∀ m, chan_frame m (f m)) → within chan_frame (modify f).
Proof. intros Hf m. apply Hf. Qed.

Lemma emit_chan_frame (e : event) : within chan_frame (emit e).
Proof. apply modify_chan_frame. intros m. repeat split. Qed.

Lemma update_state_chan_frame (f : state → state) (h : nat) :
  within chan_frame (update_state f h).
Proof. apply modify_chan_frame. intros m. repeat split. Qed.

Lemma state_Close_chan_frame (h : nat) : within chan_frame (state_Close h).
Proof. wapply within_bind; [apply update_state_chan_frame|intros; apply emit_chan_frame]. Qed.

Section FrameLemmas.
Variable Changed : state → NodeService → string → bool.
Variable newState_fails : NodeService → string → bool.
Variable watch_fails : state → bool.
Variable range_order : ∀ A, list A → list A.

Lemma ensure_create_chan_frame (ns : NodeService) (token : string) :
  within chan_frame (ensure_create newState_fails watch_fails ns token).
Proof.
  intros m. rewrite ensure_create_eq.
  destruct (newState_fails ns token); [reflexivity|].
  simpl. destruct (watch_fails _); repeat split.
Qed.

Lemma ensureProxyServiceLocked_chan_frame (ns : NodeService) (token : string) :
  within chan_frame (ensureProxyServiceLocked Changed newState_fails watch_fails ns token).
Proof.
  unfold ensureProxyServiceLocked. within_steps;
    auto using ensure_create_chan_frame, state_Close_chan_frame.
Qed.

Lemma removeProxyServiceLocked_chan_frame (proxyID : string) :
  within chan_frame (removeProxyServiceLocked proxyID).
Proof.
  unfold removeProxyServiceLocked. within_steps.
  - apply state_Close_chan_frame.
  - apply modify_chan_frame. intros m'. repeat split.
Qed.

Lemma reconcile_chan_frame (services : Registry) :
  within chan_frame (reconcile Changed newState_fails watch_fails range_order services).
Proof.
  unfold reconcile. wapply within_bind; [|intros _].
  - wapply within_forM. intros [svcID [svc token]] _. unfold ensure_service.
    case_bool_decide; [wapply within_ret|].
    wapply within_bind; [apply ensureProxyServiceLocked_chan_frame|].
    intros [err|]; [apply emit_chan_frame|wapply within_ret].
  - wapply within_get_bind. intros m.
    wapply within_forM. intros [proxyID h] _. unfold remove_if_absent.
    destruct (services !! proxyID); [wapply within_ret|].
    apply removeProxyServiceLocked_chan_frame.
Qed.
End FrameLemmas.

(** ** A channel no watcher entry refers to *)

Global Instance orphan_step_preorder (c : nat) : PreOrder (orphan_step c).
Proof.
  split.
  - intros m Ho. split; [exact Ho|]. intros ch Hch. exists ch. by repeat split.
  - intros m1 m2 m3 H12 H23 Ho1.
    destruct (H12 Ho1) as [Ho2 D12]. destruct (H23 Ho2) as [Ho3 D23].
    split; [exact Ho3|]. intros ch Hch.
    destruct (D12 _ Hch) as (ch2 & Hch2 & Hc2 & Hb2).
    destruct (D23 _ Hch2) as (ch3 & Hch3 & Hc3 & Hb3).
    exists ch3. split; [exact Hch3|]. split; [congruence|]. by etrans.
Qed.

Lemma drains_eq (c : nat) (m m' : Manager) :
  chans m' !! c = chans m !! c → drains c m m'.
Proof. intros Heq ch Hch. exists ch. rewrite Heq. by repeat split. Qed.

Lemma within_chan_frame_orphan {A} (c : nat) (x : M A) :
  within chan_frame x → within (orphan_step c) x.
Proof.
  intros Hx m [Hlt Hno]. destruct (Hx m) as (Hw & Hc & Hn).
  split; [split|].
  - by rewrite Hn.
  - intros p i. unfold watcher_chan. rewrite Hw. apply Hno.
  - apply drains_eq. by rewrite Hc.
Qed.

Lemma closeWatchLocked_orphan (c : nat) (proxyID : string) (watchIdx : nat) :
  within (orphan_step c) (closeWatchLocked proxyID watchIdx).
Proof.
  intros m [Hlt Hno]. unfold closeWatchLocked, chan_close. run_M.
  destruct (watchers m !! proxyID) as [ws|] eqn:Hw; simpl;
    [|destruct m; split; [split; assumption|apply drains_eq; reflexivity]].
  destruct (ws !! watchIdx) as [c0|] eqn:Hc0; simpl;
    [|destruct m; split; [split; assumption|apply drains_eq; reflexivity]].
  assert (Hne : c0 ≠ c).
  { intros ->. apply (Hno proxyID watchIdx). unfold watcher_chan. by rewrite Hw. }
  assert (Hold : ∀ j c', delete watchIdx ws !! j = Some c' → watcher_chan m proxyID j = Some c').
  { intros j c' Hj. apply lookup_delete_Some in Hj as [_ Hj].
    unfold watcher_chan. by rewrite Hw. }
  case_bool_decide; run_M; (split; [split|]).
  - exact Hlt.
  - intros q j. unfold watcher_chan in *. simpl. rewrite lookup_delete.
    case_decide; [discriminate|]. rewrite lookup_insert_ne by congruence. apply Hno.
  - apply drains_eq. simpl. by rewrite lookup_alter_ne.
  - exact Hlt.
  - intros q j Hq. unfold watcher_chan in *. simpl in Hq. rewrite lookup_insert in Hq.
    case_decide.
    + subst q. simpl in Hq. apply (Hno proxyID j). by apply Hold.
    + by apply (Hno q j).
  - apply drains_eq. simpl. by rewrite lookup_alter_ne.
Qed.

Lemma Watch_orphan (c : nat) (proxyID : string) :
  within (orphan_step c) (Watch proxyID).
Proof.
  intros m [Hlt Hno]. unfold Watch, make_chan, chan_push, current_snapshot. run_M.
  assert (Hn : c ≠ next_chan m) by lia.
  assert (Hw : ∀ q j, watcher_chan
      (set_watchers (<[proxyID := <[size (default ∅ (watchers m !! proxyID)) := next_chan m]>
                                  (default ∅ (watchers m !! proxyID))]> (watchers m)) m)
      q j ≠ Some c).
  { intros q j. unfold watcher_chan, set_watchers. simpl. rewrite lookup_insert.
    case_decide; [subst q|apply Hno]. simpl. rewrite lookup_insert.
    case_decide; [congruence|].
    destruct (watchers m !! proxyID) as [ws|] eqn:Hws; simpl;
      [|by rewrite lookup_empty].
    intros Hj. apply (Hno proxyID j). unfold watcher_chan. by rewrite Hws. }
  unfold set_watchers, watcher_chan in Hw. simpl in Hw.
  lazymatch goal with
  | |- context [match ?x with Some _ => _ | None => _ end] => destruct x
  end; run_M; unfold orphan; simpl; (split; [split; [lia|exact Hw]|]); apply drains_eq; simpl;
    rewrite ?lookup_alter_ne by congruence; by rewrite lookup_insert_ne by congruence.
Qed.

Lemma try_send_orphan (c c0 : nat) (snap : ConfigSnapshot) :
  c0 ≠ c → within (orphan_step c) (try_send c0 snap).
Proof.
  intros Hne m [Hlt Hno]. unfold try_send, chan_push. run_M.
  destruct (chans m !! c0); simpl; [case_bool_decide|]; run_M;
    (split; [split; assumption|]); apply drains_eq; simpl; try reflexivity.
  by rewrite lookup_alter_ne.
Qed.

Lemma chan_recv_orphan (c c' : nat) : within (orphan_step c) (chan_recv c').
Proof.
  intros m Ho. unfold chan_recv. run_M. split; [exact Ho|].
  intros ch Hch. simpl. rewrite lookup_alter. case_decide.
  - subst c'. rewrite Hch. eexists; split; [reflexivity|]. split; [reflexivity|].
    simpl. destruct (ch_buf ch) as [|x l]; simpl; [done|]. by apply suffix_cons_r.
  - exists ch. by repeat split.
Qed.

Section OrphanOps.
Variable Changed : state → NodeService → string → bool.
Variable newState_fails : NodeService → string → bool.
Variable watch_fails : state → bool.
Variable range_order : ∀ A, list A → list A.
(** Go's [range] visits entries of the map it ranges over. *)
Hypothesis range_order_sub : ∀ A (l : list A) x, x ∈ range_order A l → x ∈ l.

Lemma notify_orphan (c : nat) (snap : ConfigSnapshot) :
  within (orphan_step c) (notify range_order snap).
Proof.
  intros m Ho. unfold notify. run_M.
  destruct (watchers m !! ProxyID snap) as [ws|] eqn:Hw;
    [|split; [exact Ho|apply drains_eq; reflexivity]].
  refine (within_forM (orphan_step c) _ _ _ m Ho). intros [i c0] Hin.
  apply range_order_sub, elem_of_map_to_list in Hin.
  apply try_send_orphan. intros ->. destruct Ho as [_ Hno].
  apply (Hno (ProxyID snap) i). unfold watcher_chan. by rewrite Hw.
Qed.

Lemma Close_orphan (c : nat) : within (orphan_step c) (Close range_order).
Proof.
  unfold Close. within_steps.
  - apply within_chan_frame_orphan, emit_chan_frame.
  - apply within_chan_frame_orphan, modify_chan_frame. intros m. repeat split.
  - wapply within_forM. intros [proxyID ws] _.
    wapply within_forM. intros [idx c0] _. apply closeWatchLocked_orphan.
  - apply within_chan_frame_orphan. wapply within_forM. intros [proxyID h] _.
    wapply within_bind; [apply state_Close_chan_frame|intros _].
    apply modify_chan_frame. intros m. repeat split.
Qed.

Lemma exec_op_orphan (c : nat) (o : op) :
  within (orphan_step c) (exec_op Changed newState_fails watch_fails range_order o).
Proof.
  destruct o; simpl.
  - wapply within_bind; [apply Watch_orphan|intros _; wapply within_ret].
  - apply closeWatchLocked_orphan.
  - apply notify_orphan.
  - apply within_chan_frame_orphan, reconcile_chan_frame.
  - wapply within_bind; [apply Close_orphan|intros _; wapply within_ret].
  - apply chan_recv_orphan.
  - apply within_chan_frame_orphan, update_state_chan_frame.
Qed.

Lemma exec_ops_orphan (c : nat) (os : list op) :
  within (orphan_step c) (exec_ops Changed newState_fails watch_fails range_order os).
Proof.
  induction os as [|o os IH]; simpl; [wapply within_ret|].
  wapply within_bind; [apply exec_op_orphan|intros _; exact IH].
Qed.
End OrphanOps.

(** ** Watcher identifiers *)

Lemma Watch_eq (proxyID : string) (m : Manager) :
  Watch proxyID m =
  let ws := default ∅ (watchers m !! proxyID) in
  ((next_chan m, (proxyID, size ws)),
   mkManager (stateCh m) (proxies m)
     (<[proxyID := <[size ws := next_chan m]> ws]> (watchers m))
     (states m) (next_state m)
     (<[next_chan m := fresh_chan (current_snapshot m proxyID)]> (chans m))
     (S (next_chan m)) (trace m)).
Proof.
  unfold Watch, make_chan, chan_push, fresh_chan. run_M.
  destruct (current_snapshot _ _) eqn:Hcur; run_M.
  - by rewrite alter_insert_eq.
  - reflexivity.
Qed.

Lemma closeWatchLocked_eq (proxyID : string) (watchIdx : nat) (m : Manager)
    (ws : gmap nat nat) (c : nat) :
  watchers m !! proxyID = Some ws → ws !! watchIdx = Some c →
  closeWatchLocked proxyID watchIdx m =
  (tt, mkManager (stateCh m) (proxies m)
         (if bool_decide (size (delete watchIdx ws) = 0)
          then delete proxyID (watchers m)
          else <[proxyID := delete watchIdx ws]> (watchers m))
         (states m) (next_state m) (alter closed_chan c (chans m)) (next_chan m)
         (trace m ++ [EvChanClose c])).
Proof.
  intros Hw Hc. unfold closeWatchLocked, chan_close. run_M. rewrite Hw, Hc.
  case_bool_decide; run_M; [by rewrite delete_insert_eq|reflexivity].
Qed.

(** C9: from a proxy with no watchers, Watch (id 0), Watch (id 1), cancel
    the first, Watch: the third registration gets id 1 and replaces the
    second's entry.  The second's channel is then open and referenced by
    no entry, so whatever happens afterwards it is never closed and never
    sent to; and the second's cancel function closes the third's channel
    and leaves its own as it is. *)
Theorem Watch_identifier_reuse (p : string) (m : Manager) :
  watchers m !! p = None → chans_allocated m →
  let '((c1, cf1), m1) := Watch p m in
  let '((c2, cf2), m2) := Watch p m1 in
  let m3 := (cancel cf1 m2).2 in
  let '((c3, cf3), m4) := Watch p m3 in
  cf1 = (p, 0) ∧ cf2 = (p, 1) ∧ cf3 = (p, 1) ∧ c2 ≠ c3 ∧
  watcher_chan m4 p 1 = Some c3 ∧
  option_map ch_closed (chans m4 !! c2) = Some false ∧
  (∀ Changed newState_fails watch_fails range_order,
     (∀ A (l : list A) x, x ∈ range_order A l → x ∈ l) →
     ∀ os, drains c2 m4
             (exec_ops Changed newState_fails watch_fails range_order os m4).2) ∧
  chans (cancel cf2 m4).2 !! c3 = closed_chan <$> chans m4 !! c3 ∧
  chans (cancel cf2 m4).2 !! c2 = chans m4 !! c2.
Proof.
  intros Hnone Halloc.
  assert (E0 : size (∅ : gmap nat nat) = 0) by reflexivity.
  assert (E1 : ∀ v : nat, size (<[0:=v]> (∅ : gmap nat nat)) = 1) by reflexivity.
  assert (E2 : ∀ v w : nat, size (delete 0 (<[1:=w]> (<[0:=v]> (∅ : gmap nat nat)))) = 1)
    by reflexivity.
  rewrite Watch_eq. simpl. rewrite Hnone. simpl. rewrite E0.
  rewrite Watch_eq. simpl. rewrite lookup_insert_eq. simpl. rewrite E1.
  unfold cancel. simpl.
  rewrite (closeWatchLocked_eq _ _ _
             (<[1:=S (next_chan m)]> (<[0:=next_chan m]> ∅)) (next_chan m));
    [|simpl; apply lookup_insert_eq|reflexivity].
  simpl. rewrite E2. simpl.
  rewrite Watch_eq. simpl. rewrite lookup_insert_eq. simpl. rewrite E2.
  set (ws4 := <[1:=S (S (next_chan m))]>
                (delete 0 (<[1:=S (next_chan m)]> (<[0:=next_chan m]> ∅)))
              : gmap nat nat).
  match goal with |- context [watcher_chan ?mm p 1] => set (m4 := mm) end.
  assert (Hw4 : watchers m4 !! p = Some ws4) by (simpl; apply lookup_insert_eq).
  assert (Hc4 : ws4 !! 1 = Some (S (S (next_chan m)))) by reflexivity.
  rewrite (closeWatchLocked_eq _ _ _ ws4 (S (S (next_chan m))) Hw4 Hc4).
  split; [reflexivity|]. split; [reflexivity|]. split; [reflexivity|].
  split; [lia|]. split.
  { unfold watcher_chan. by rewrite Hw4. }
  split.
  { simpl. rewrite lookup_insert_ne, lookup_alter_ne, lookup_insert_eq by lia.
    reflexivity. }
  split.
  { intros Changed newState_fails watch_fails range_order Hord os.
    apply (exec_ops_orphan Changed newState_fails watch_fails range_order Hord).
    split; [simpl; lia|]. intros q i. unfold watcher_chan.
    destruct (decide (q = p)) as [->|Hq].
    - rewrite Hw4. unfold ws4. simpl. rewrite lookup_insert.
      case_decide; [simpl; intros [= ?]; lia|]. rewrite lookup_delete.
      case_decide; [discriminate|]. rewrite !lookup_insert_ne by congruence.
      by rewrite lookup_empty.
    - simpl. rewrite !lookup_insert_ne by congruence. intros Hqi.
      pose proof (Halloc q i _ Hqi). lia. }
  simpl. split.
  - by rewrite lookup_alter_eq.
  - by rewrite lookup_alter_ne by lia.
Qed.

(** ** A reconciliation pass and the tracked proxy set *)

(** Closes [no_log] goals on explicit lists of events. *)
Ltac no_log_tac :=
  let k := fresh "k" in let Hk := fresh "Hk" in
  intros k Hk; apply list_elem_of_In in Hk; simpl in Hk; intuition discriminate.

Section PassLemmas.
Variable Changed : state → NodeService → string → bool.
Variable newState_fails : NodeService → string → bool.
Variable watch_fails : state → bool.

Lemma ensureProxyServiceLocked_proxies (ns : NodeService) (token : string) (m : Manager) :
  let '(err, m') := ensureProxyServiceLocked Changed newState_fails watch_fails ns token m in
  (∃ evs, trace m' = trace m ++ evs ∧ no_log evs) ∧
  (∀ k, k ≠ ID ns → proxies m' !! k = proxies m !! k) ∧
  (err = None → is_Some (proxies m' !! ID ns)) ∧
  (err ≠ None → proxies m' !! ID ns = proxies m !! ID ns).
Proof.
  assert (Hc : ∀ m0, let '(err, m') := ensure_create newState_fails watch_fails ns token m0 in
      (∃ evs, trace m' = trace m0 ++ evs ∧ no_log evs) ∧
      (∀ k, k ≠ ID ns → proxies m' !! k = proxies m0 !! k) ∧
      (err = None → is_Some (proxies m' !! ID ns)) ∧
      (err ≠ None → proxies m' = proxies m0)).
  { intros m0. rewrite ensure_create_eq.
    destruct (newState_fails ns token); simpl.
    - split; [exists []; split; [by rewrite app_nil_r|no_log_tac]|].
      split; [done|]. split; [discriminate|done].
    - destruct (watch_fails _); simpl.
      + split; [eexists; split; [reflexivity|no_log_tac]|].
        split; [done|]. split; [discriminate|done].
      + split; [eexists; split; [reflexivity|no_log_tac]|].
        split; [intros k Hk; by rewrite lookup_insert_ne by congruence|].
        split; [intros _; rewrite lookup_insert_eq; eauto|congruence]. }
  unfold ensureProxyServiceLocked. run_M.
  destruct (proxies m !! ID ns) as [h|] eqn:Hp;
    [destruct (states m !! h) as [st|]; [destruct (Changed st ns token)|]|].
  - unfold state_Close, update_state. run_M.
    lazymatch goal with |- context [ensure_create _ _ _ _ ?mc] =>
      specialize (Hc mc); destruct (ensure_create newState_fails watch_fails ns token mc) as [err m'] end.
    destruct Hc as ([evs [Ht Hl]] & Ho & Hs & Hf). simpl in *.
    split; [exists ([EvStateClose h] ++ evs); split; [by rewrite Ht, app_assoc|]|].
    { intros k Hk. apply list_elem_of_In, in_app_or in Hk as [Hk|Hk];
        [simpl in Hk; intuition discriminate|].
      apply (Hl k), list_elem_of_In, Hk. }
    split; [exact Ho|]. split; [exact Hs|]. intros He. by rewrite Hf.
  - split; [exists []; split; [by rewrite app_nil_r|no_log_tac]|].
    split; [done|]. split; [rewrite Hp; eauto|done].
  - specialize (Hc m). destruct (ensure_create newState_fails watch_fails ns token m) as [err m'].
    destruct Hc as (Ht & Ho & Hs & Hf).
    split; [exact Ht|]. split; [exact Ho|]. split; [exact Hs|]. intros He. by rewrite Hf.
  - specialize (Hc m). destruct (ensure_create newState_fails watch_fails ns token m) as [err m'].
    destruct Hc as (Ht & Ho & Hs & Hf).
    split; [exact Ht|]. split; [exact Ho|]. split; [exact Hs|]. intros He. by rewrite Hf.
Qed.

Lemma ensure_service_effect (k0 : string) (svc0 : NodeService) (tok0 : string) (m : Manager) :
  ID svc0 = k0 →
  let m' := (ensure_service Changed newState_fails watch_fails (k0, (svc0, tok0)) m).2 in
  ∃ evs, trace m' = trace m ++ evs ∧
    (∀ k, EvLogErr k ∈ evs → k = k0 ∧ proxies m' !! k0 = proxies m !! k0) ∧
    (∀ k, k ≠ k0 → proxies m' !! k = proxies m !! k) ∧
    (Kind svc0 = ServiceKindConnectProxy → EvLogErr k0 ∉ evs → is_Some (proxies m' !! k0)) ∧
    (is_Some (proxies m !! k0) → is_Some (proxies m' !! k0)) ∧
    (proxies m !! k0 = None → is_Some (proxies m' !! k0) →
       Kind svc0 = ServiceKindConnectProxy).
Proof.
  intros Hid. unfold ensure_service. case_bool_decide as Hk; run_M.
  - exists []. split; [by rewrite app_nil_r|].
    split; [intros k Hin; by apply list_elem_of_In in Hin|].
    split; [done|]. split; [done|]. split; [done|]. intros Hn Hs. rewrite Hn in Hs.
    by destruct Hs.
  - pose proof (ensureProxyServiceLocked_proxies svc0 tok0 m) as He.
    destruct (ensureProxyServiceLocked Changed newState_fails watch_fails svc0 tok0 m)
      as [err x].
    destruct He as ([evs [Ht Hl]] & Ho & Hs & Hf). rewrite Hid in *.
    destruct err as [e|]; run_M.
    + exists (evs ++ [EvLogErr k0]). split; [by rewrite Ht, app_assoc|].
      assert (Hx : proxies x !! k0 = proxies m !! k0) by (apply Hf; discriminate).
      split; [intros k Hin; split; [|exact Hx]|].
      { apply list_elem_of_In, in_app_or in Hin as [H|H].
        - exfalso. apply (Hl k), list_elem_of_In, H.
        - simpl in H. destruct H as [H|[]]. congruence. }
      split; [exact Ho|]. split.
      * intros _ Hn. exfalso. apply Hn, list_elem_of_In, in_or_app. right. left. reflexivity.
      * split; [by rewrite Hx|]. intros _ _.
        destruct (decide (Kind svc0 = ServiceKindConnectProxy)); [done|contradiction].
    + exists evs. split; [exact Ht|].
      split; [intros k Hin; exfalso; exact (Hl k Hin)|].
      split; [exact Ho|]. split; [intros _ _; by apply Hs|].
      split; [intros _; by apply Hs|]. intros _ _.
      destruct (decide (Kind svc0 = ServiceKindConnectProxy)); [done|contradiction].
Qed.

Lemma forM_cons_snd {A} (x : A) (l : list A) (f : A → M unit) (m : Manager) :
  (forM_ (x :: l) f m).2 = (forM_ l f (f x m).2).2.
Proof. simpl. unfold mbind, M_bind. by destruct (f x m) as [[] ?]. Qed.

Lemma ensure_loop_effect (l : list (string * (NodeService * string))) (m : Manager) :
  NoDup l.*1 → (∀ k svc tok, (k, (svc, tok)) ∈ l → ID svc = k) →
  let m1 := (forM_ l (ensure_service Changed newState_fails watch_fails) m).2 in
  ∃ added, trace m1 = trace m ++ added ∧
  ∀ k,
   (is_Some (proxies m1 !! k) → is_Some (proxies m !! k) ∨
      ∃ svc tok, (k, (svc, tok)) ∈ l ∧ Kind svc = ServiceKindConnectProxy) ∧
   (∀ svc tok, (k, (svc, tok)) ∈ l → Kind svc = ServiceKindConnectProxy →
      EvLogErr k ∉ added → is_Some (proxies m1 !! k)) ∧
   (is_Some (proxies m !! k) → is_Some (proxies m1 !! k)) ∧
   (EvLogErr k ∈ added → proxies m !! k = None → proxies m1 !! k = None) ∧
   (EvLogErr k ∈ added → k ∈ l.*1).
Proof.
  revert m. induction l as [|[k0 [svc0 tok0]] l IH]; intros m Hnd Hwf.
  { simpl. exists []. split; [by rewrite app_nil_r|]. intros k.
    split; [auto|]. split; [intros ?? Hin; by apply list_elem_of_In in Hin|].
    split; [done|]. split; intros Hin; by apply list_elem_of_In in Hin. }
  apply NoDup_cons in Hnd as [Hk0 Hnd].
  assert (Hid : ID svc0 = k0) by (apply Hwf with tok0; left).
  pose proof (ensure_service_effect k0 svc0 tok0 m Hid) as Hh.
  cbv zeta. rewrite forM_cons_snd.
  set (x := (ensure_service Changed newState_fails watch_fails (k0, (svc0, tok0)) m).2)
    in *.
  destruct Hh as (evs & Ht & Hlog & Ho & Hok & Hmono & Hkind).
  assert (Hwf' : ∀ k svc tok, (k, (svc, tok)) ∈ l → ID svc = k)
    by (intros; eapply Hwf; right; eassumption).
  destruct (IH x Hnd Hwf') as (added & Ht' & Hrest).
  assert (Hnotin : ∀ svc tok, (k0, (svc, tok)) ∉ l).
  { intros svc tok Hin. apply Hk0. apply (list_elem_of_fmap_2 fst) in Hin. exact Hin. }
  exists (evs ++ added). split; [by rewrite Ht', Ht, app_assoc|].
  intros k. destruct (Hrest k) as (R1 & R2 & R3 & R4 & R5).
  split; [|split; [|split; [|split]]].
  - intros Hs. destruct (R1 Hs) as [Hx|(svc & tok & Hin & Hc)].
    + destruct (decide (k = k0)) as [->|Hne].
      * destruct (proxies m !! k0) eqn:Hm; [left; eauto|].
        right. exists svc0, tok0. split; [left|]. by apply Hkind.
      * left. by rewrite <- Ho.
    + right. exists svc, tok. split; [by right|exact Hc].
  - intros svc tok Hin Hc Hn. apply elem_of_cons in Hin as [Hin|Hin].
    + injection Hin as -> -> ->. apply R3, Hok; [exact Hc|].
      intros He. apply Hn. set_solver.
    + apply (R2 svc tok Hin Hc). intros He. apply Hn. set_solver.
  - intros Hs. apply R3. destruct (decide (k = k0)) as [->|Hne]; [by apply Hmono|].
    by rewrite Ho.
  - intros He Hm. apply elem_of_app in He as [He|He].
    + destruct (Hlog k He) as [-> Hx].
      destruct (proxies (forM_ l _ x).2 !! k0) eqn:Hf; [|reflexivity].
      destruct (R1 ltac:(by eexists)) as [Hs|(svc & tok & Hin & _)].
      * rewrite Hx, Hm in Hs. by destruct Hs.
      * by destruct (Hnotin svc tok).
    + apply R4; [exact He|]. pose proof (R5 He) as Hkl.
      rewrite Ho; [exact Hm|]. intros ->. contradiction.
  - intros He. apply elem_of_app in He as [He|He].
    + destruct (Hlog k He) as [-> _]. left.
    + right. by apply R5.
Qed.

End PassLemmas.

Lemma remove_effect (p : string) (m : Manager) :
  let m' := (removeProxyServiceLocked p m).2 in
  (∃ evs, trace m' = trace m ++ evs ∧ no_log evs) ∧
  proxies m' = delete p (proxies m).
Proof.
  unfold removeProxyServiceLocked. run_M.
  destruct (proxies m !! p) as [h|] eqn:Hp.
  - unfold state_Close, update_state. run_M.
    split; [eexists; split; [reflexivity|no_log_tac]|done].
  - split; [exists []; split; [by rewrite app_nil_r|no_log_tac]|].
    by rewrite delete_id.
Qed.

Lemma remove_loop_effect (services : Registry) (l : list (string * nat)) (m : Manager) :
  let m1 := (forM_ l (remove_if_absent services) m).2 in
  (∃ evs, trace m1 = trace m ++ evs ∧ no_log evs) ∧
  ∀ k, proxies m1 !! k =
    if decide (k ∈ l.*1) then
      match services !! k with Some _ => proxies m !! k | None => None end
    else proxies m !! k.
Proof.
  revert m. induction l as [|[k0 h0] l IH]; intros m.
  { simpl. split; [exists []; split; [by rewrite app_nil_r|no_log_tac]|].
    intros k. reflexivity. }
  cbv zeta. rewrite forM_cons_snd.
  set (x := (remove_if_absent services (k0, h0) m).2).
  assert (Hx : (∃ evs, trace x = trace m ++ evs ∧ no_log evs) ∧
     proxies x = match services !! k0 with Some _ => proxies m | None => delete k0 (proxies m) end).
  { subst x. unfold remove_if_absent. destruct (services !! k0).
    - run_M. split; [exists []; split; [by rewrite app_nil_r|no_log_tac]|done].
    - apply remove_effect. }
  destruct Hx as ([evs [Ht Hl]] & Hp).
  destruct (IH x) as ([evs' [Ht' Hl']] & Hq).
  split.
  { exists (evs ++ evs'). split; [by rewrite Ht', Ht, app_assoc|].
    intros k Hk. apply elem_of_app in Hk as [Hk|Hk]; [by apply (Hl k)|by apply (Hl' k)]. }
  intros k. rewrite Hq, Hp.
  assert (Hiff : k ∈ ((k0, h0) :: l).*1 ↔ k = k0 ∨ k ∈ l.*1)
    by (simpl; apply elem_of_cons).
  destruct (decide (k = k0)) as [->|Hne].
  - destruct (decide (k0 ∈ ((k0, h0) :: l).*1)) as [_|Hn]; [|exfalso; apply Hn, Hiff; by left].
    destruct (services !! k0); destruct (decide (k0 ∈ l.*1)); by rewrite ?lookup_delete_eq.
  - assert (Hxk : (match services !! k0 with Some _ => proxies m
                   | None => delete k0 (proxies m) end) !! k = proxies m !! k)
      by (destruct (services !! k0); by rewrite ?lookup_delete_ne by congruence).
    destruct (decide (k ∈ l.*1)) as [H2|H2];
      destruct (decide (k ∈ ((k0, h0) :: l).*1)) as [H1|H1].
    + by rewrite Hxk.
    + exfalso. apply H1, Hiff. by right.
    + apply Hiff in H1 as [?|?]; contradiction.
    + exact Hxk.
Qed.

(** C1 (counterexample): "web-sidecar" is tracked as a proxy and then
    re-registered under the same identifier with a non-proxy kind. The
    next pass logs no error and leaves it tracked, though it is no longer
    a connect-proxy entry. *)
Lemma reconcile_keeps_retyped_service :
  let m' := (reconcile (λ _ _ _, false) (λ _ _, false) (λ _, false) (λ _ l, l)
               retyped_registry tracked_web).2 in
  is_proxy_entry retyped_registry "web-sidecar" = false ∧
  trace m' = trace tracked_web ∧
  proxies m' !! "web-sidecar" = Some 0.
Proof. vm_compute. repeat split. Qed.

(** C1 (amended): after one reconciliation pass with a well-formed
    registry, whatever order the map ranges take: every tracked identifier
    is registered; a tracked identifier is a connect-proxy entry or was
    already tracked before the pass; every connect-proxy entry for which
    no error was logged in the pass is tracked; an identifier for which
    an error was logged and which was untracked before stays untracked. *)
Theorem reconcile_tracked_set
    (Changed : state → NodeService → string → bool)
    (newState_fails : NodeService → string → bool) (watch_fails : state → bool)
    (range_order : ∀ A, list A → list A)
    (Hperm : ∀ A (l : list A), range_order A l ≡ₚ l)
    (services : Registry) (Hwf : registry_wf services = true) (m : Manager) :
  let m' := (reconcile Changed newState_fails watch_fails range_order services m).2 in
  ∃ added, trace m' = trace m ++ added ∧
  ∀ k,
    (is_Some (proxies m' !! k) → is_Some (services !! k)) ∧
    (is_Some (proxies m' !! k) →
       is_Some (proxies m !! k) ∨ is_proxy_entry services k = true) ∧
    (is_proxy_entry services k = true → EvLogErr k ∉ added →
       is_Some (proxies m' !! k)) ∧
    (EvLogErr k ∈ added → proxies m !! k = None → proxies m' !! k = None).
Proof.
  unfold registry_wf in Hwf. apply bool_decide_eq_true in Hwf.
  set (l1 := range_order _ (map_to_list services)).
  assert (Hl1 : ∀ e, e ∈ l1 ↔ e ∈ map_to_list services)
    by (intros e; subst l1; by rewrite (Hperm _ (map_to_list services))).
  assert (Hnd : NoDup l1.*1).
  { subst l1. rewrite (Hperm _ (map_to_list services)). apply NoDup_fst_map_to_list. }
  assert (Hw : ∀ k svc tok, (k, (svc, tok)) ∈ l1 → ID svc = k).
  { intros k svc tok Hin. apply Hl1, elem_of_map_to_list in Hin.
    exact (Hwf k (svc, tok) Hin). }
  pose proof (ensure_loop_effect Changed newState_fails watch_fails l1 m Hnd Hw) as Hx.
  cbv zeta in *. unfold reconcile, mbind, M_bind, get. fold l1.
  destruct (forM_ l1 (ensure_service Changed newState_fails watch_fails) m)
    as [[] m1] eqn:E1. simpl in Hx. destruct Hx as (added1 & Ht1 & H1).
  set (l2 := range_order _ (map_to_list (proxies m1))).
  destruct (remove_loop_effect services l2 m1) as ([evs2 [Ht2 Hl2]] & H2).
  assert (Hfin : ∀ k, proxies (forM_ l2 (remove_if_absent services) m1).2 !! k =
            match services !! k with Some _ => proxies m1 !! k | None => None end).
  { intros k. rewrite H2. case_decide as Hin.
    - done.
    - destruct (proxies m1 !! k) as [h|] eqn:Hk; [|by destruct (services !! k)].
      exfalso. apply Hin. subst l2. rewrite (Hperm _ (map_to_list (proxies m1))).
      apply (list_elem_of_fmap_2' fst _ (k, h)); [by apply elem_of_map_to_list|done]. }
  exists (added1 ++ evs2). split; [by rewrite Ht2, Ht1, app_assoc|].
  intros k. destruct (H1 k) as (R1 & R2 & R3 & R4 & R5). rewrite Hfin.
  unfold is_proxy_entry.
  split; [|split; [|split]].
  - intros Hs. destruct (services !! k); [eauto|by destruct Hs].
  - intros Hs. destruct (services !! k) as [[svc tok]|] eqn:Hk; [|by destruct Hs].
    destruct (R1 Hs) as [Hm|(svc' & tok' & Hin & Hc)]; [by left|right].
    apply Hl1, elem_of_map_to_list in Hin.
    assert (Heq : Some (svc', tok') = Some (svc, tok)) by (rewrite <- Hk; symmetry; exact Hin).
    injection Heq as -> ->.
    by apply bool_decide_eq_true.
  - destruct (services !! k) as [[svc tok]|] eqn:Hk; [|discriminate].
    intros Hc Hn. apply bool_decide_eq_true in Hc. apply (R2 svc tok).
    + by apply Hl1, elem_of_map_to_list.
    + exact Hc.
    + intros He. apply Hn, elem_of_app. by left.
  - intros He Hm. apply elem_of_app in He as [He|He].
    + rewrite (R4 He Hm). by destruct (services !! k).
    + by destruct (Hl2 k He).
Qed.

(** ** Closing the manager twice *)

Lemma forM_noop {A} (l : list A) (f : A → M unit) (m : Manager) :
  (∀ a, a ∈ l → f a m = (tt, m)) → forM_ l f m = (tt, m).
Proof.
  induction l as [|a l IH]; intros Hf; [reflexivity|].
  simpl. unfold mbind, M_bind. rewrite Hf by left. apply IH.
  intros b Hb. apply Hf. by right.
Qed.

Lemma close_inner_loop (p : string) (I : list (nat * nat)) (ws : gmap nat nat)
    (x : Manager) :
  NoDup I.*1 → (∀ i, is_Some (ws !! i) ↔ i ∈ I.*1) → watchers x !! p = Some ws →
  let x' := (forM_ I (λ '(idx, _), closeWatchLocked p idx) x).2 in
  stateCh x' = stateCh x ∧ proxies x' = proxies x ∧
  (∀ q, q ≠ p → watchers x' !! q = watchers x !! q) ∧
  watchers x' !! p = match I with [] => Some ws | _ => None end.
Proof.
  revert ws x. induction I as [|[i c] I IH]; intros ws x Hnd Hdom Hw; [done|].
  cbv zeta. rewrite forM_cons_snd.
  apply NoDup_cons in Hnd as [Hi Hnd].
  change (i ∉ I.*1) in Hi. change (NoDup I.*1) in Hnd.
  destruct (ws !! i) as [c0|] eqn:Hc.
  2:{ exfalso. destruct (proj2 (Hdom i)) as [? Hs]; [left|]. by rewrite Hc in Hs. }
  assert (Hdom' : ∀ j, is_Some (delete i ws !! j) ↔ j ∈ I.*1).
  { intros j. destruct (decide (j = i)) as [->|Hne].
    - rewrite lookup_delete_eq. split; [by intros []|]. intros Hj. exfalso. exact (Hi Hj).
    - rewrite lookup_delete_ne by congruence. rewrite Hdom. simpl.
      rewrite elem_of_cons. naive_solver. }
  simpl. rewrite (closeWatchLocked_eq p i x ws c0 Hw Hc). simpl.
  case_bool_decide as Hsz.
  - apply map_size_empty_iff in Hsz.
    destruct I as [|[j d] I'].
    + simpl. split; [done|]. split; [done|].
      split; [intros q Hq; by rewrite lookup_delete_ne by congruence|].
      by rewrite lookup_delete_eq.
    + exfalso. destruct (proj2 (Hdom' j)) as [? Hs]; [left|].
      by rewrite Hsz, lookup_empty in Hs.
  - lazymatch goal with |- context [forM_ _ _ ?x1] =>
      assert (Hw1 : watchers x1 !! p = Some (delete i ws)) by (simpl; by rewrite lookup_insert_eq);
      destruct (IH (delete i ws) x1 Hnd Hdom' Hw1) as (IH1 & IH2 & IH3 & IH4) end.
    split; [exact IH1|]. split; [exact IH2|].
    split; [intros q Hq; rewrite IH3 by exact Hq; simpl; by rewrite lookup_insert_ne by congruence|].
    rewrite IH4. destruct I as [|? ?]; [|done].
    exfalso. apply Hsz, map_size_empty_iff, map_empty.
    intros j. destruct (delete i ws !! j) eqn:Hj; [|done].
    assert (Hin : j ∈ ([] : list (nat * nat)).*1) by (apply Hdom'; by eexists).
    by apply list_elem_of_In in Hin.
Qed.

Lemma close_proxies_loop (L : list (string * nat)) (x : Manager) :
  let x' := (forM_ L (λ '(proxyID, h),
      state_Close h ;; modify (λ m, set_proxies (delete proxyID (proxies m)) m)) x).2 in
  stateCh x' = stateCh x ∧ watchers x' = watchers x ∧
  ∀ q, proxies x' !! q = if decide (q ∈ L.*1) then None else proxies x !! q.
Proof.
  revert x. induction L as [|[p h] L IH]; intros x.
  { simpl. split; [done|]. split; [done|]. intros q. reflexivity. }
  cbv zeta. rewrite forM_cons_snd.
  lazymatch goal with |- context [forM_ _ _ (?c x).2] => set (x1 := (c x).2) end.
  assert (H1 : stateCh x1 = stateCh x ∧ watchers x1 = watchers x ∧
               proxies x1 = delete p (proxies x)).
  { subst x1. unfold state_Close, update_state. run_M. done. }
  destruct H1 as (H1s & H1w & H1p). destruct (IH x1) as (IHs & IHw & IHp).
  split; [congruence|]. split; [congruence|].
  intros q. rewrite IHp, H1p.
  destruct (decide (q = p)) as [->|Hne].
  - destruct (decide (p ∈ ((p, h) :: L).*1)) as [_|Hn]; [|exfalso; apply Hn; left].
    destruct (decide (p ∈ L.*1)); [done|apply lookup_delete_eq].
  - rewrite lookup_delete_ne by congruence.
    destruct (decide (q ∈ L.*1)) as [Hq|Hq];
      destruct (decide (q ∈ ((p, h) :: L).*1)) as [Hq'|Hq']; try done.
    + exfalso. apply Hq'. by right.
    + exfalso. simpl in Hq'. apply elem_of_cons in Hq' as [?|?]; contradiction.
Qed.

Section CloseTwice.
Variable range_order : ∀ A, list A → list A.
Arguments range_order {A} _.
Hypothesis range_order_perm : ∀ A (l : list A), range_order l ≡ₚ l.

Lemma range_order_nil A : range_order (@nil A) = [].
Proof. apply Permutation_nil. symmetry. apply range_order_perm. Qed.

Lemma close_outer_loop (L : list (string * gmap nat nat)) (x : Manager) :
  NoDup L.*1 → (∀ p ws, (p, ws) ∈ L → watchers x !! p = Some ws) →
  let x' := (forM_ L (λ '(proxyID, ws), forM_ (range_order (map_to_list ws))
               (λ '(idx, _), closeWatchLocked proxyID idx)) x).2 in
  stateCh x' = stateCh x ∧ proxies x' = proxies x ∧
  ∀ q, (q ∈ L.*1 → ∀ ws, watchers x' !! q = Some ws → ws = ∅) ∧
       (q ∉ L.*1 → watchers x' !! q = watchers x !! q).
Proof.
  revert x. induction L as [|[p ws] L IH]; intros x Hnd Hw.
  { simpl. split; [done|]. split; [done|]. intros q. split; [|done].
    intros Hq. by apply list_elem_of_In in Hq. }
  cbv zeta. rewrite forM_cons_snd.
  apply NoDup_cons in Hnd as [Hp Hnd].
  change (p ∉ L.*1) in Hp. change (NoDup L.*1) in Hnd.
  set (I := range_order (map_to_list ws)).
  assert (HndI : NoDup I.*1)
    by (subst I; rewrite (range_order_perm _ (map_to_list ws)); apply NoDup_fst_map_to_list).
  assert (HdomI : ∀ i, is_Some (ws !! i) ↔ i ∈ I.*1).
  { intros i. subst I. rewrite (range_order_perm _ (map_to_list ws)).
    split.
    - intros [c Hc]. apply (list_elem_of_fmap_2' fst _ (i, c)); [by apply elem_of_map_to_list|done].
    - intros Hi. apply list_elem_of_fmap in Hi as [[j c] [-> Hj]].
      apply elem_of_map_to_list in Hj. simpl. by eexists. }
  simpl. fold I.
  destruct (close_inner_loop p I ws x HndI HdomI (Hw p ws (list_elem_of_here _ _)))
    as (I1 & I2 & I3 & I4).
  set (x1 := (forM_ I (λ '(idx, _), closeWatchLocked p idx) x).2) in *.
  assert (Hw1 : ∀ q ws', (q, ws') ∈ L → watchers x1 !! q = Some ws').
  { intros q ws' Hin. rewrite I3.
    - apply Hw. by right.
    - intros ->. apply Hp. apply (list_elem_of_fmap_2 fst) in Hin. exact Hin. }
  destruct (IH x1 Hnd Hw1) as (O1 & O2 & O3).
  split; [congruence|]. split; [congruence|].
  intros q. destruct (O3 q) as [O3a O3b].
  destruct (decide (q = p)) as [->|Hne].
  - split; [|intros Hn; exfalso; apply Hn; left].
    intros _ ws'. rewrite O3b by exact Hp. rewrite I4.
    destruct I as [|? ?] eqn:HI; [|discriminate].
    intros [= <-]. apply map_empty. intros i. destruct (ws !! i) eqn:Hi; [|done].
    assert (Hin : i ∈ ([] : list (nat * nat)).*1) by (apply HdomI; by eexists).
    by apply list_elem_of_In in Hin.
  - split.
    + intros Hq. apply elem_of_cons in Hq as [?|Hq]; [contradiction|]. by apply O3a.
    + intros Hq. rewrite O3b by (intros ?; apply Hq; by right). apply I3, Hne.
Qed.

Lemma Close_post (m : Manager) :
  let m1 := (Close (@range_order) m).2 in
  stateCh m1 = false ∧ (∀ p ws, watchers m1 !! p = Some ws → ws = ∅) ∧
  proxies m1 = ∅.
Proof.
  set (m0 := (if stateCh m then emit EvCloseStateCh ;; modify (set_stateCh false)
              else skip) m : unit * Manager).
  assert (H0 : stateCh m0.2 = false).
  { subst m0. destruct (stateCh m) eqn:Hs; run_M; done. }
  unfold Close. run_M. fold m0. destruct m0 as [[] x0]. simpl in H0.
  set (L := range_order (map_to_list (watchers x0))).
  assert (HndL : NoDup L.*1)
    by (subst L; rewrite (range_order_perm _ (map_to_list (watchers x0)));
        apply NoDup_fst_map_to_list).
  assert (HwL : ∀ p ws, (p, ws) ∈ L → watchers x0 !! p = Some ws).
  { intros p ws Hin. subst L. rewrite (range_order_perm _ (map_to_list (watchers x0))) in Hin.
    by apply elem_of_map_to_list. }
  destruct (close_outer_loop L x0 HndL HwL) as (O1 & O2 & O3).
  cbv zeta in O1, O2, O3.
  lazymatch goal with |- context [forM_ L ?f x0] =>
    destruct (forM_ L f x0) as [[] x1] eqn:E1 end.
  simpl in O1, O2, O3.
  set (P := range_order (map_to_list (proxies x1))).
  destruct (close_proxies_loop P x1) as (P1 & P2 & P3).
  lazymatch goal with |- context [forM_ P ?f x1] =>
    destruct (forM_ P f x1) as [[] x2] eqn:E2 end.
  lazymatch type of P1 with context [(forM_ P ?f x1).2] =>
    assert (E2' : (forM_ P f x1).2 = x2)
      by (etransitivity; [|exact (f_equal snd E2)]; reflexivity) end.
  rewrite E2' in P1, P2, P3. simpl.
  split; [congruence|]. split.
  - intros p ws Hws. rewrite P2 in Hws.
    destruct (decide (p ∈ L.*1)) as [Hp|Hp]; [by apply (proj1 (O3 p) Hp)|].
    exfalso. rewrite (proj2 (O3 p) Hp) in Hws. apply Hp.
    apply (list_elem_of_fmap_2' fst _ (p, ws)); [|done].
    subst L. rewrite (range_order_perm _ (map_to_list (watchers x0))).
    by apply elem_of_map_to_list.
  - apply map_empty. intros q. rewrite P3. case_decide as Hq; [done|].
    destruct (proxies x1 !! q) as [h|] eqn:Hh; [|done].
    exfalso. apply Hq. apply (list_elem_of_fmap_2' fst _ (q, h)); [|done].
    subst P. rewrite (range_order_perm _ (map_to_list (proxies x1))).
    by apply elem_of_map_to_list.
Qed.

End CloseTwice.

(** C10: Close is idempotent. Whatever the state it starts from and
    whatever order the map ranges take, a second Close returns nil and
    leaves the manager exactly as the first one left it: the channel is
    already nil, and the watcher and proxy maps hold nothing to close. *)
Theorem Close_idempotent (range_order : ∀ A, list A → list A)
    (Hperm : ∀ A (l : list A), range_order A l ≡ₚ l) (m : Manager) :
  let m1 := (Close range_order m).2 in
  Close range_order m1 = (None, m1).
Proof.
  cbv zeta. destruct (Close_post range_order Hperm m) as (H1 & H2 & H3).
  set (m1 := (Close range_order m).2) in *. clearbody m1.
  unfold Close. run_M. rewrite H1. run_M.
  rewrite (forM_noop _ _ m1).
  2:{ intros [p ws] Hin. rewrite (Hperm _ (map_to_list (watchers m1))) in Hin.
      apply elem_of_map_to_list in Hin. rewrite (H2 p ws Hin).
      rewrite map_to_list_empty, (range_order_nil range_order Hperm). reflexivity. }
  simpl. rewrite H3, map_to_list_empty, (range_order_nil range_order Hperm).
  reflexivity.
Qed.

(** ** The claims at concrete inputs *)

(** Proves a decidable proposition about concrete states by evaluating
    its decision procedure. *)
Ltac decide_by_eval :=
  lazymatch goal with |- ?P => apply (bool_decide_eq_true_1 P); vm_compute; reflexivity end.

(** C1 at a fresh manager and a registry with one proxy and one typical
    service, in the order the maps list their entries. *)
Lemma reconcile_tracked_set_witness :
  registry_wf mixed_registry = true ∧
  let m' := (reconcile changed_by_token (λ _ _, false) (λ _, false) (λ _ l, l)
               mixed_registry NewManager).2 in
  ∃ added, trace m' = trace NewManager ++ added ∧
  ∀ k,
    (is_Some (proxies m' !! k) → is_Some (mixed_registry !! k)) ∧
    (is_Some (proxies m' !! k) →
       is_Some (proxies NewManager !! k) ∨ is_proxy_entry mixed_registry k = true) ∧
    (is_proxy_entry mixed_registry k = true → EvLogErr k ∉ added →
       is_Some (proxies m' !! k)) ∧
    (EvLogErr k ∈ added → proxies NewManager !! k = None → proxies m' !! k = None).
Proof.
  split; [vm_compute; reflexivity|].
  apply (reconcile_tracked_set changed_by_token (λ _ _, false) (λ _, false) (λ _ l, l)).
  - intros A l. reflexivity.
  - vm_compute. reflexivity.
Defined.

(** C2 at "web-sidecar", tracked with token "T1" and ensured again with
    token "T2". *)
Lemma ensureProxyServiceLocked_replace_witness :
  live_tracked tracked_web ∧
  let '(err, m') := ensureProxyServiceLocked changed_by_token (λ _ _, false) (λ _, false)
                      web_sidecar "T2" tracked_web in
  live_tracked m' ∧ at_most_one_live m' ∧
  ∀ h st, proxies tracked_web !! ID web_sidecar = Some h →
    states tracked_web !! h = Some st →
    (changed_by_token st web_sidecar "T2" = false → err = None ∧ m' = tracked_web) ∧
    (changed_by_token st web_sidecar "T2" = true →
       ∃ rest, trace m' = trace tracked_web ++ EvStateClose h :: rest).
Proof.
  split; [decide_by_eval|].
  apply (ensureProxyServiceLocked_replace changed_by_token (λ _ _, false) (λ _, false)).
  decide_by_eval.
Defined.

(** C7 at the first of two watchers of "svc-a". *)
Lemma closeWatchLocked_spec_witness :
  no_empty_watcher_sets two_watchers ∧
  let m' := (closeWatchLocked "svc-a" 0 two_watchers).2 in
  no_empty_watcher_sets m' ∧
  match watcher_chan two_watchers "svc-a" 0 with
  | Some c =>
      watcher_chan m' "svc-a" 0 = None ∧
      (∀ i, i ≠ 0 → watcher_chan m' "svc-a" i = watcher_chan two_watchers "svc-a" i) ∧
      (∀ q, q ≠ "svc-a" → watchers m' !! q = watchers two_watchers !! q) ∧
      chans m' !! c = closed_chan <$> chans two_watchers !! c ∧
      (∀ c', c' ≠ c → chans m' !! c' = chans two_watchers !! c') ∧
      proxies m' = proxies two_watchers ∧ states m' = states two_watchers
  | None => m' = two_watchers
  end.
Proof.
  split; [decide_by_eval|].
  apply closeWatchLocked_spec.
  decide_by_eval.
Defined.

(** C9 at "svc-a" on a fresh manager (the spec's scenario C). *)
Lemma Watch_identifier_reuse_witness :
  watchers NewManager !! "svc-a" = None ∧ chans_allocated NewManager ∧
  let '((c1, cf1), m1) := Watch "svc-a" NewManager in
  let '((c2, cf2), m2) := Watch "svc-a" m1 in
  let m3 := (cancel cf1 m2).2 in
  let '((c3, cf3), m4) := Watch "svc-a" m3 in
  cf1 = ("svc-a", 0) ∧ cf2 = ("svc-a", 1) ∧ cf3 = ("svc-a", 1) ∧ c2 ≠ c3 ∧
  watcher_chan m4 "svc-a" 1 = Some c3 ∧
  option_map ch_closed (chans m4 !! c2) = Some false ∧
  (∀ Changed newState_fails watch_fails range_order,
     (∀ A (l : list A) x, x ∈ range_order A l → x ∈ l) →
     ∀ os, drains c2 m4
             (exec_ops Changed newState_fails watch_fails range_order os m4).2) ∧
  chans (cancel cf2 m4).2 !! c3 = closed_chan <$> chans m4 !! c3 ∧
  chans (cancel cf2 m4).2 !! c2 = chans m4 !! c2.
Proof.
  split; [reflexivity|].
  split; [decide_by_eval|].
  apply Watch_identifier_reuse.
  - reflexivity.
  - decide_by_eval.
Defined.

(** C10 on a manager with two watchers, in the order the maps list their
    entries. *)
Lemma Close_idempotent_witness :
  let m1 := (Close (λ _ l, l) two_watchers).2 in
  Close (λ _ l, l) m1 = (None, m1).
Proof.
  apply (Close_idempotent (λ _ l, l)).
  intros A l. reflexivity.
Defined.

(** ** Channel safety across every operation *)

Lemma chan_closes_app (tr1 tr2 : list event) :
  chan_closes (tr1 ++ tr2) = chan_closes tr1 ++ chan_closes tr2.
Proof. induction tr1 as [|[] tr1 IH]; simpl; rewrite ?IH; reflexivity. Qed.

Lemma stateCh_closes_app (tr1 tr2 : list event) :
  stateCh_closes (tr1 ++ tr2) = stateCh_closes tr1 + stateCh_closes tr2.
Proof. induction tr1 as [|[] tr1 IH]; simpl; rewrite ?IH; reflexivity. Qed.

Global Instance keeps_preorder : PreOrder keeps.
Proof.
  split; [intros m; repeat split|].
  intros m1 m2 m3 (?&?&H12&?&?&?) (?&?&H23&?&?&?).
  repeat split; try congruence.
  all: intros c; by rewrite H23, H12.
Qed.

Global Instance preserves_preorder (P : Manager → Prop) : PreOrder (preserves P).
Proof. split; [intros m H; exact H|intros m1 m2 m3 H12 H23 H; auto]. Qed.

Global Instance keeps_states_preorder : PreOrder keeps_states.
Proof. split; [intros m; split; reflexivity|intros m1 m2 m3 [] []; split; congruence]. Qed.

Global Instance appends_preorder (P : event → Prop) : PreOrder (appends P).
Proof.
  split.
  - intros m. split; [reflexivity|]. exists []. by rewrite app_nil_r.
  - intros m1 m2 m3 [Hs1 (e1 & Ht1 & Hf1)] [Hs2 (e2 & Ht2 & Hf2)].
    split; [congruence|]. exists (e1 ++ e2). rewrite Ht2, Ht1, app_assoc.
    split; [reflexivity|]. by apply Forall_app.
Qed.

Lemma within_mono {A} (R R' : Manager → Manager → Prop) (c : M A) :
  (∀ m m', R m m' → R' m m') → within R c → within R' c.
Proof. intros HR Hc m. apply HR, Hc. Qed.

Lemma keeps_ok (m m' : Manager) : keeps m m' → preserves manager_ok m m'.
Proof.
  intros (Hw & Hn & Hc & Hcl & Hs & Hscl) Hok.
  assert (Hopen : ∀ c b, ch_closed <$> chans m !! c = Some b →
                   ∃ ch, chans m' !! c = Some ch ∧ ch_closed ch = b).
  { intros c b Hb. rewrite <- Hc in Hb.
    destruct (chans m' !! c) as [ch|]; [|discriminate]. injection Hb as <-. by exists ch. }
  split.
  - intros c Hle. specialize (Hc c). rewrite (ok_fresh m Hok c) in Hc by lia.
    by destruct (chans m' !! c).
  - intros p i c Hpc. unfold watcher_chan in Hpc. rewrite Hw in Hpc.
    destruct (ok_open m Hok p i c Hpc) as (ch & Hch & Hcl').
    apply Hopen. rewrite Hch. simpl. by rewrite Hcl'.
  - intros p i q j c. unfold watcher_chan. rewrite Hw. apply (ok_inj m Hok).
  - rewrite Hcl. apply (ok_closes_nodup m Hok).
  - intros c. rewrite Hcl, (ok_closes m Hok). split.
    + intros (ch & Hch & Hcl'). apply Hopen. rewrite Hch. simpl. by rewrite Hcl'.
    + intros (ch & Hch & Hcl'). specialize (Hc c). rewrite Hch in Hc. simpl in Hc.
      destruct (chans m !! c) as [ch0|]; [|discriminate]. injection Hc as Hc.
      exists ch0. split; [reflexivity|congruence].
  - rewrite Hscl, Hs. apply (ok_stateCh m Hok).
Qed.

Lemma keeps_chans (m m' : Manager) :
  watchers m' = watchers m → chans m' = chans m → next_chan m' = next_chan m →
  stateCh m' = stateCh m → (∃ evs, trace m' = trace m ++ evs ∧ Forall pass_event evs) →
  keeps m m'.
Proof.
  intros Hw Hc Hn Hs (evs & Ht & Hf).
  assert (Hq : chan_closes evs = [] ∧ stateCh_closes evs = 0).
  { clear Ht. induction Hf as [|[] evs He Hf IH]; simpl in *; done. }
  repeat split; try assumption.
  - intros c. by rewrite Hc.
  - by rewrite Ht, chan_closes_app, (proj1 Hq), app_nil_r.
  - rewrite Ht, stateCh_closes_app, (proj2 Hq). lia.
Qed.

Global Instance pass_step_preorder : PreOrder pass_step.
Proof.
  split; [intros m; split; reflexivity|].
  intros m1 m2 m3 [] []. split; etrans; eassumption.
Qed.

Lemma pass_step_keeps (m m' : Manager) : pass_step m m' → keeps m m'.
Proof. intros [(Hw & Hc & Hn) [Hs Ht]]. by apply keeps_chans. Qed.

Lemma modify_pass_step (f : Manager → Manager) :
  (∀ m, watchers (f m) = watchers m ∧ chans (f m) = chans m ∧
        next_chan (f m) = next_chan m ∧ stateCh (f m) = stateCh m ∧ trace (f m) = trace m) →
  within pass_step (modify f).
Proof.
  intros Hf m. destruct (Hf m) as (?&?&?&?&Ht).
  split; [repeat split; assumption|]. split; [assumption|].
  exists []. by rewrite app_nil_r.
Qed.

Lemma emit_pass_step (e : event) : pass_event e → within pass_step (emit e).
Proof.
  intros He m. split; [repeat split|]. split; [reflexivity|].
  exists [e]. split; [reflexivity|]. by constructor.
Qed.

Lemma update_state_pass_step (f : state → state) (h : nat) :
  within pass_step (update_state f h).
Proof. apply modify_pass_step. intros m. repeat split. Qed.

Lemma state_Close_pass_step (h : nat) : within pass_step (state_Close h).
Proof.
  wapply within_bind; [apply update_state_pass_step|intros _].
  apply emit_pass_step. exact I.
Qed.

Section PassSteps.
Variable Changed : state → NodeService → string → bool.
Variable newState_fails : NodeService → string → bool.
Variable watch_fails : state → bool.
Variable range_order : ∀ A, list A → list A.

Lemma ensure_create_pass_step (ns : NodeService) (token : string) :
  within pass_step (ensure_create newState_fails watch_fails ns token).
Proof.
  intros m. rewrite ensure_create_eq.
  destruct (newState_fails ns token); [reflexivity|].
  simpl. destruct (watch_fails _); (split; [repeat split|split; [reflexivity|]]);
    (eexists; split; [reflexivity|]); repeat constructor.
Qed.

Lemma ensureProxyServiceLocked_pass_step (ns : NodeService) (token : string) :
  within pass_step (ensureProxyServiceLocked Changed newState_fails watch_fails ns token).
Proof.
  unfold ensureProxyServiceLocked. within_steps;
    auto using ensure_create_pass_step, state_Close_pass_step.
Qed.

Lemma removeProxyServiceLocked_pass_step (proxyID : string) :
  within pass_step (removeProxyServiceLocked proxyID).
Proof.
  unfold removeProxyServiceLocked. within_steps.
  - apply state_Close_pass_step.
  - apply modify_pass_step. intros m'. repeat split.
Qed.

Lemma reconcile_pass_step (services : Registry) :
  within pass_step (reconcile Changed newState_fails watch_fails range_order services).
Proof.
  unfold reconcile. wapply within_bind; [|intros _].
  - wapply within_forM. intros [svcID [svc token]] _. unfold ensure_service.
    case_bool_decide; [wapply within_ret|].
    wapply within_bind; [apply ensureProxyServiceLocked_pass_step|].
    intros [err|]; [apply emit_pass_step; exact I|wapply within_ret].
  - wapply within_get_bind. intros m.
    wapply within_forM. intros [proxyID h] _. unfold remove_if_absent.
    destruct (services !! proxyID); [wapply within_ret|].
    apply removeProxyServiceLocked_pass_step.
Qed.
End PassSteps.

Lemma within_bind_at (R : Manager → Manager → Prop) `{!PreOrder R} {A B}
    (c : M A) (f : A → M B) (m : Manager) :
  R m (c m).2 → (∀ x, within R (f x)) → R m ((c ≫= f) m).2.
Proof.
  intros Hc Hf. unfold mbind, M_bind. destruct (c m) as [x m1]. simpl in *.
  etrans; [exact Hc|apply Hf].
Qed.

Lemma watcher_chan_lt (m : Manager) (p : string) (i c : nat) :
  manager_ok m → watcher_chan m p i = Some c → c < next_chan m.
Proof.
  intros Hok Hc. destruct (ok_open m Hok p i c Hc) as (ch & Hch & _).
  destruct (decide (next_chan m ≤ c)) as [Hle|]; [|lia].
  by rewrite (ok_fresh m Hok c Hle) in Hch.
Qed.

(** The entries of the registry after [Watch]. *)
Lemma watcher_chan_Watch (p q : string) (j : nat) (m : Manager) :
  watcher_chan (Watch p m).2 q j =
  if bool_decide (q = p ∧ j = size (default ∅ (watchers m !! p)))
  then Some (next_chan m) else watcher_chan m q j.
Proof.
  rewrite Watch_eq. unfold watcher_chan. simpl. rewrite lookup_insert.
  case_decide as Hq.
  - subst q. simpl. rewrite lookup_insert. case_decide as Hj.
    + subst j. rewrite bool_decide_true by done. reflexivity.
    + rewrite bool_decide_false by naive_solver.
      destruct (watchers m !! p); simpl; [reflexivity|by rewrite lookup_empty].
  - rewrite bool_decide_false by naive_solver. reflexivity.
Qed.

Lemma Watch_ok (p : string) : within (preserves manager_ok) (Watch p).
Proof.
  intros m Hok. pose proof (λ q j, watcher_chan_Watch p q j m) as Hwc'.
  pose proof (Watch_eq p m) as E. rewrite E in Hwc' |- *. simpl in *.
  set (ws := default ∅ (watchers m !! p)) in *.
  set (cur := current_snapshot m p) in *.
  assert (Hold : ∀ q j d, watcher_chan m q j = Some d → d ≠ next_chan m).
  { intros q j d Hd. pose proof (watcher_chan_lt m q j d Hok Hd). lia. }
  split; simpl.
  - intros c Hle. rewrite lookup_insert_ne by lia. apply (ok_fresh m Hok). lia.
  - intros q j d Hd. rewrite Hwc' in Hd. case_bool_decide.
    + injection Hd as <-. rewrite lookup_insert_eq. by eexists.
    + rewrite lookup_insert_ne by (intros Heq; apply (Hold q j d Hd); congruence).
      by apply (ok_open m Hok q j).
  - intros q1 j1 q2 j2 d. rewrite !Hwc'.
    case_bool_decide as B1; case_bool_decide as B2; intros H1 H2.
    + naive_solver.
    + injection H1 as <-. exfalso. by apply (Hold q2 j2 (next_chan m)).
    + injection H2 as <-. exfalso. by apply (Hold q1 j1 (next_chan m)).
    + by apply (ok_inj m Hok q1 j1 q2 j2 d).
  - apply (ok_closes_nodup m Hok).
  - intros c. rewrite (ok_closes m Hok). rewrite lookup_insert.
    case_decide as Hc.
    + subst c. rewrite (ok_fresh m Hok) by lia. split; [by intros (? & ? & _)|].
      intros (ch & [= <-] & Hcl). unfold fresh_chan in Hcl. by destruct cur.
    + reflexivity.
  - apply (ok_stateCh m Hok).
Qed.

(** [closeWatchLocked] changes the registry and the channels only at the
    entry it removes. *)
Lemma closeWatchLocked_fields (p : string) (i : nat) (m : Manager) :
  let m' := (closeWatchLocked p i m).2 in
  stateCh m' = stateCh m ∧ proxies m' = proxies m ∧ states m' = states m ∧
  next_chan m' = next_chan m ∧
  (∀ q j, watcher_chan m' q j =
            if bool_decide (q = p ∧ j = i) then None else watcher_chan m q j) ∧
  chans m' = match watcher_chan m p i with
             | Some c => alter closed_chan c (chans m)
             | None => chans m
             end ∧
  trace m' = trace m ++ match watcher_chan m p i with
                        | Some c => [EvChanClose c]
                        | None => []
                        end.
Proof.
  cbv zeta.
  destruct (watcher_chan m p i) as [c|] eqn:Hpi.
  2:{ assert (E : closeWatchLocked p i m = (tt, m)).
      { unfold closeWatchLocked. run_M. unfold watcher_chan in Hpi.
        destruct (watchers m !! p) as [ws|]; simpl in Hpi; [|reflexivity].
        by rewrite Hpi. }
      rewrite E. simpl. rewrite app_nil_r.
      repeat split. intros q j. case_bool_decide as Hqj; [|reflexivity].
      by destruct Hqj as [-> ->]. }
  unfold watcher_chan in Hpi.
  destruct (watchers m !! p) as [ws|] eqn:Hw; simpl in Hpi; [|discriminate].
  rewrite (closeWatchLocked_eq p i m ws c Hw Hpi). simpl.
  repeat split. intros q j. unfold watcher_chan. simpl.
  case_bool_decide as Hsz.
  - apply map_size_empty_iff in Hsz. rewrite lookup_delete.
    case_decide as Hq; simpl.
    + subst q. case_bool_decide as Hj; [reflexivity|].
      rewrite Hw. simpl. rewrite <- (lookup_delete_ne ws i j) by naive_solver.
      by rewrite Hsz, lookup_empty.
    + rewrite bool_decide_false by naive_solver. reflexivity.
  - rewrite lookup_insert. case_decide as Hq; simpl.
    + subst q. rewrite Hw. simpl. rewrite lookup_delete.
      case_decide as Hj; case_bool_decide; naive_solver.
    + rewrite bool_decide_false by naive_solver. reflexivity.
Qed.

Lemma closeWatchLocked_ok (p : string) (i : nat) :
  within (preserves manager_ok) (closeWatchLocked p i).
Proof.
  intros m Hok. destruct (closeWatchLocked_fields p i m) as (Hs & _ & _ & Hn & Hwc & Hc & Ht).
  set (m' := (closeWatchLocked p i m).2) in *. clearbody m'.
  destruct (watcher_chan m p i) as [c|] eqn:Hpi.
  2:{ split.
      - intros d Hle. rewrite Hc. apply (ok_fresh m Hok). lia.
      - intros q j d Hd. rewrite Hwc in Hd. case_bool_decide; [discriminate|].
        rewrite Hc. by apply (ok_open m Hok q j).
      - intros q1 j1 q2 j2 d H1 H2. rewrite Hwc in H1, H2.
        do 2 case_bool_decide; try discriminate. by apply (ok_inj m Hok q1 j1 q2 j2 d).
      - rewrite Ht, app_nil_r. apply (ok_closes_nodup m Hok).
      - intros d. rewrite Ht, app_nil_r, Hc. apply (ok_closes m Hok).
      - rewrite Ht, app_nil_r, Hs. apply (ok_stateCh m Hok). }
  destruct (ok_open m Hok p i c Hpi) as (ch & Hch & Hopen).
  assert (Hother : ∀ q j d, watcher_chan m' q j = Some d →
                   watcher_chan m q j = Some d ∧ d ≠ c).
  { intros q j d Hd. rewrite Hwc in Hd. case_bool_decide as Hqj; [discriminate|].
    split; [exact Hd|]. intros ->. apply Hqj. exact (ok_inj m Hok q j p i c Hd Hpi). }
  split.
  - intros d Hle. pose proof (watcher_chan_lt m p i c Hok Hpi).
    rewrite Hc, lookup_alter_ne by lia. apply (ok_fresh m Hok). lia.
  - intros q j d Hd. destruct (Hother q j d Hd) as [Hd' Hne].
    rewrite Hc, lookup_alter_ne by congruence. by apply (ok_open m Hok q j).
  - intros q1 j1 q2 j2 d H1 H2.
    apply (ok_inj m Hok q1 j1 q2 j2 d); [apply (Hother _ _ _ H1)|apply (Hother _ _ _ H2)].
  - rewrite Ht, chan_closes_app. simpl. apply NoDup_app. split; [apply (ok_closes_nodup m Hok)|].
    split; [|apply NoDup_singleton].
    intros d Hd Hd'. apply list_elem_of_singleton in Hd' as ->.
    apply (ok_closes m Hok) in Hd as (ch' & Hch' & Hcl). congruence.
  - intros d. rewrite Ht, chan_closes_app. simpl. rewrite elem_of_app, list_elem_of_singleton.
    rewrite Hc. destruct (decide (d = c)) as [->|Hne].
    + rewrite lookup_alter_eq, Hch. simpl. split; [intros _; by eexists|intros _; by right].
    + rewrite lookup_alter_ne by congruence. rewrite <- (ok_closes m Hok). naive_solver.
  - rewrite Ht, stateCh_closes_app, Hs. simpl. rewrite (ok_stateCh m Hok). lia.
Qed.

Lemma try_send_keeps (c : nat) (snap : ConfigSnapshot) : within keeps (try_send c snap).
Proof.
  intros m. unfold try_send, chan_push. run_M.
  destruct (chans m !! c) as [ch|] eqn:Hch; simpl; [case_bool_decide|]; run_M;
    try (destruct m; reflexivity).
  repeat split. intros d. simpl. rewrite lookup_alter. case_decide; [|reflexivity].
  subst d. by rewrite Hch.
Qed.

Lemma chan_recv_keeps (c : nat) : within keeps (chan_recv c).
Proof.
  intros m. unfold chan_recv. run_M. repeat split.
  intros d. simpl. rewrite lookup_alter. case_decide; [|reflexivity].
  subst d. by destruct (chans m !! c).
Qed.

Section OkOps.
Variable Changed : state → NodeService → string → bool.
Variable newState_fails : NodeService → string → bool.
Variable watch_fails : state → bool.
Variable range_order : ∀ A, list A → list A.

Lemma within_keeps_ok {A} (c : M A) : within keeps c → within (preserves manager_ok) c.
Proof. apply within_mono, keeps_ok. Qed.

Lemma within_pass_step_ok {A} (c : M A) : within pass_step c → within (preserves manager_ok) c.
Proof. intros H. apply within_keeps_ok. revert H. apply within_mono, pass_step_keeps. Qed.

Lemma notify_keeps (snap : ConfigSnapshot) : within keeps (notify range_order snap).
Proof.
  unfold notify. within_steps. wapply within_forM. intros [i c] _. apply try_send_keeps.
Qed.

Lemma Close_ok : within (preserves manager_ok) (Close range_order).
Proof.
  unfold Close. wapply within_get_bind. intros m.
  wapply within_bind_at.
  - intros Hok. destruct (stateCh m) eqn:Hs; run_M; [|exact Hok].
    destruct Hok as [H1 H2 H3 H4 H5 H6]. split; simpl; try assumption.
    + by rewrite chan_closes_app, app_nil_r.
    + intros c. by rewrite chan_closes_app, app_nil_r.
    + rewrite stateCh_closes_app, H6, Hs. reflexivity.
  - intros _. within_steps.
    + wapply within_forM. intros [proxyID ws] _.
      wapply within_forM. intros [idx c0] _. apply closeWatchLocked_ok.
    + apply within_pass_step_ok. wapply within_forM. intros [proxyID h] _.
      wapply within_bind; [apply state_Close_pass_step|intros _].
      apply modify_pass_step. intros m'. repeat split.
Qed.

Lemma exec_op_ok (o : op) :
  within (preserves manager_ok) (exec_op Changed newState_fails watch_fails range_order o).
Proof.
  destruct o; simpl.
  - wapply within_bind; [apply Watch_ok|intros _; wapply within_ret].
  - apply closeWatchLocked_ok.
  - apply within_keeps_ok, notify_keeps.
  - apply within_pass_step_ok, reconcile_pass_step.
  - wapply within_bind; [apply Close_ok|intros _; wapply within_ret].
  - apply within_keeps_ok, chan_recv_keeps.
  - apply within_pass_step_ok, update_state_pass_step.
Qed.

Lemma exec_ops_ok (os : list op) :
  within (preserves manager_ok) (exec_ops Changed newState_fails watch_fails range_order os).
Proof.
  induction os as [|o os IH]; simpl; [wapply within_ret|].
  wapply within_bind; [apply exec_op_ok|intros _; exact IH].
Qed.
End OkOps.

Lemma NewManager_cfg_ok (cfg : ManagerConfig) (m0 : Manager) :
  (NewManager_cfg cfg).1 = Some m0 → manager_ok m0.
Proof.
  unfold NewManager_cfg. destruct (_ || _); intros [= <-].
  split; simpl.
  - intros c _. apply lookup_empty.
  - intros p i c H. unfold watcher_chan in H. rewrite ?lookup_empty in H. discriminate.
  - intros p i q j c H. unfold watcher_chan in H. rewrite ?lookup_empty in H. discriminate.
  - constructor.
  - intros c. split; [intros Hc; by apply list_elem_of_In in Hc|]. intros (ch & Hch & _).
    rewrite ?lookup_empty in Hch. discriminate.
  - reflexivity.
Qed.

(** ** Live watch states across every operation *)

Lemma keeps_states_live (m m' : Manager) : keeps_states m m' → preserves live_tracked m m'.
Proof. intros [Hs Hp] Hl h st. rewrite Hs, Hp. apply Hl. Qed.

Lemma Watch_keeps_states (p : string) : within keeps_states (Watch p).
Proof. intros m. rewrite Watch_eq. split; reflexivity. Qed.

Lemma closeWatchLocked_keeps_states (p : string) (i : nat) :
  within keeps_states (closeWatchLocked p i).
Proof.
  intros m. destruct (closeWatchLocked_fields p i m) as (_ & Hp & Hs & _). by split.
Qed.

Lemma try_send_keeps_states (c : nat) (snap : ConfigSnapshot) :
  within keeps_states (try_send c snap).
Proof.
  intros m. unfold try_send, chan_push. run_M.
  destruct (chans m !! c); simpl; [case_bool_decide|]; run_M; split; reflexivity.
Qed.

Lemma update_snap_live (h : nat) (snap : ConfigSnapshot) :
  within (preserves live_tracked)
    (update_state (λ st, mkState (ws_ns st) (ws_token st) (ws_closed st)
                           (ws_started st) (Some snap)) h).
Proof.
  intros m Hl h' st'. unfold update_state. run_M. rewrite lookup_alter.
  case_decide; [|apply Hl]. subst h'.
  destruct (states m !! h) as [st|] eqn:Hst; simpl; [|intros ?; discriminate].
  intros [= <-] Hlive. exact (Hl h st Hst Hlive).
Qed.

Lemma ensureProxyServiceLocked_live (Changed : state → NodeService → string → bool)
    (newState_fails : NodeService → string → bool) (watch_fails : state → bool)
    (ns : NodeService) (token : string) :
  within (preserves live_tracked)
    (ensureProxyServiceLocked Changed newState_fails watch_fails ns token).
Proof.
  intros m Hl. unfold ensureProxyServiceLocked. run_M.
  destruct (proxies m !! ID ns) as [h|] eqn:Hp.
  2:{ apply ensure_create_live_tracked; [exact Hl|].
      intros h' st' Hst Hlive Hid. pose proof (Hl _ _ Hst Hlive). congruence. }
  destruct (states m !! h) as [st|] eqn:Hs.
  2:{ apply ensure_create_live_tracked; [exact Hl|].
      intros h' st' Hst Hlive Hid. pose proof (Hl _ _ Hst Hlive) as Ht.
      rewrite Hid, Hp in Ht. injection Ht as <-. congruence. }
  destruct (Changed st ns token); [|exact Hl].
  unfold state_Close, update_state. run_M.
  match goal with |- context [ensure_create _ _ _ _ ?mc] => set (m_closed := mc) end.
  assert (Hlc : live_tracked m_closed).
  { intros h' st' Hst Hlive. simpl in *. rewrite lookup_alter in Hst.
    case_decide; [|by apply Hl].
    subst. rewrite Hs in Hst. injection Hst as <-. unfold live in Hlive. simpl in Hlive.
    by rewrite andb_false_r in Hlive. }
  apply ensure_create_live_tracked; [exact Hlc|].
  intros h' st' Hst Hlive Hid. pose proof (Hlc _ _ Hst Hlive) as Ht.
  simpl in Ht. rewrite Hid, Hp in Ht. injection Ht as <-.
  simpl in Hst. rewrite lookup_alter_eq, Hs in Hst. injection Hst as <-.
  unfold live in Hlive. simpl in Hlive. by rewrite andb_false_r in Hlive.
Qed.

(** Closing the state [h] and deleting [p] keeps every live state
    tracked when [p] maps to [h] or to nothing. *)
Lemma close_entry_live (p : string) (h : nat) (m : Manager) :
  (proxies m !! p = Some h ∨ proxies m !! p = None) → live_tracked m →
  live_tracked ((state_Close h ;; modify (λ m, set_proxies (delete p (proxies m)) m)) m).2.
Proof.
  intros Hp Hl h' st'. unfold state_Close, update_state. run_M.
  rewrite lookup_alter. case_decide as Hh.
  - subst h'. destruct (states m !! h); simpl; [|intros ?; discriminate].
    intros [= <-]. unfold live. simpl. by rewrite andb_false_r.
  - intros Hst Hlive. pose proof (Hl _ _ Hst Hlive) as Ht.
    rewrite lookup_delete_ne; [exact Ht|]. intros Hid. subst p.
    destruct Hp as [Hp|Hp]; congruence.
Qed.

Lemma removeProxyServiceLocked_live (proxyID : string) :
  within (preserves live_tracked) (removeProxyServiceLocked proxyID).
Proof.
  intros m Hl. unfold removeProxyServiceLocked. run_M.
  destruct (proxies m !! proxyID) as [h|] eqn:Hp; [|exact Hl].
  apply (close_entry_live proxyID h m); [by left|exact Hl].
Qed.

Lemma close_proxies_live (L : list (string * nat)) (x : Manager) :
  (∀ p h, (p, h) ∈ L → proxies x !! p = Some h ∨ proxies x !! p = None) →
  live_tracked x →
  live_tracked (forM_ L (λ '(proxyID, h),
      state_Close h ;; modify (λ m, set_proxies (delete proxyID (proxies m)) m)) x).2.
Proof.
  revert x. induction L as [|[p h] L IH]; intros x HL Hl; [exact Hl|].
  rewrite forM_cons_snd.
  lazymatch goal with |- context [forM_ _ _ (?c x).2] => set (x1 := (c x).2) end.
  assert (Hl1 : live_tracked x1).
  { apply close_entry_live; [apply HL; left|exact Hl]. }
  assert (Hp1 : proxies x1 = delete p (proxies x)).
  { subst x1. unfold state_Close, update_state. run_M. reflexivity. }
  apply IH; [|exact Hl1]. intros q h' Hin. rewrite Hp1.
  destruct (decide (q = p)) as [->|Hne]; [right; apply lookup_delete_eq|].
  rewrite lookup_delete_ne by congruence. apply HL. by right.
Qed.

Section LiveOps.
Variable Changed : state → NodeService → string → bool.
Variable newState_fails : NodeService → string → bool.
Variable watch_fails : state → bool.
Variable range_order : ∀ A, list A → list A.
Hypothesis range_order_sub : ∀ A (l : list A) x, x ∈ range_order A l → x ∈ l.

Lemma within_keeps_states_live {A} (c : M A) :
  within keeps_states c → within (preserves live_tracked) c.
Proof. apply within_mono, keeps_states_live. Qed.

Lemma reconcile_live (services : Registry) :
  within (preserves live_tracked)
    (reconcile Changed newState_fails watch_fails range_order services).
Proof.
  unfold reconcile. wapply within_bind; [|intros _].
  - wapply within_forM. intros [svcID [svc token]] _. unfold ensure_service.
    case_bool_decide; [wapply within_ret|].
    wapply within_bind; [apply ensureProxyServiceLocked_live|].
    intros [err|]; [|wapply within_ret].
    apply within_keeps_states_live. intros m. split; reflexivity.
  - wapply within_get_bind. intros m.
    wapply within_forM. intros [proxyID h] _. unfold remove_if_absent.
    destruct (services !! proxyID); [wapply within_ret|].
    apply removeProxyServiceLocked_live.
Qed.

Lemma Close_live : within (preserves live_tracked) (Close range_order).
Proof.
  unfold Close. wapply within_get_bind. intros m.
  wapply within_bind_at; [destruct (stateCh m); run_M; intros H; exact H|intros _].
  wapply within_get_bind. intros m1.
  wapply within_bind_at.
  { refine (within_keeps_states_live _ _ m1).
    wapply within_forM. intros [proxyID ws] _.
    wapply within_forM. intros [idx c0] _. apply closeWatchLocked_keeps_states. }
  intros _. wapply within_get_bind. intros m2.
  wapply within_bind_at; [|intros _; wapply within_ret].
  intros Hl. apply close_proxies_live; [|exact Hl].
  intros p h Hin. left. apply range_order_sub in Hin. by apply elem_of_map_to_list.
Qed.

Lemma exec_op_live (o : op) :
  within (preserves live_tracked) (exec_op Changed newState_fails watch_fails range_order o).
Proof.
  destruct o; simpl.
  - apply within_keeps_states_live.
    wapply within_bind; [apply Watch_keeps_states|intros _; wapply within_ret].
  - apply within_keeps_states_live, closeWatchLocked_keeps_states.
  - apply within_keeps_states_live. unfold notify. within_steps.
    wapply within_forM. intros [i c] _. apply try_send_keeps_states.
  - apply reconcile_live.
  - wapply within_bind; [apply Close_live|intros _; wapply within_ret].
  - apply within_keeps_states_live. intros m. split; reflexivity.
  - apply update_snap_live.
Qed.

Lemma exec_ops_live (os : list op) :
  within (preserves live_tracked) (exec_ops Changed newState_fails watch_fails range_order os).
Proof.
  induction os as [|o os IH]; simpl; [wapply within_ret|].
  wapply within_bind; [apply exec_op_live|intros _; exact IH].
Qed.
End LiveOps.

(** ** Delivery by [notify] *)

Lemma offer_idem (snap : ConfigSnapshot) (ch : chan_state) :
  offer snap (offer snap ch) = offer snap ch.
Proof.
  unfold offer. destruct (bool_decide (length (ch_buf ch) < 1)) eqn:H; simpl; [|by rewrite H].
  rewrite bool_decide_false; [reflexivity|]. rewrite length_app. simpl. lia.
Qed.

Lemma try_send_fields (c : nat) (snap : ConfigSnapshot) (m : Manager) :
  let m' := (try_send c snap m).2 in
  stateCh m' = stateCh m ∧ proxies m' = proxies m ∧ watchers m' = watchers m ∧
  states m' = states m ∧ next_chan m' = next_chan m ∧ trace m' = trace m ∧
  ∀ d, chans m' !! d = if decide (d = c) then offer snap <$> chans m !! d else chans m !! d.
Proof.
  unfold try_send, chan_push, offer. run_M.
  destruct (chans m !! c) as [ch|] eqn:Hch; simpl; [case_bool_decide|]; run_M;
    repeat split; intros d; case_decide; subst; rewrite ?Hch; simpl; try reflexivity.
  - by rewrite lookup_alter_eq, Hch, bool_decide_true.
  - by rewrite lookup_alter_ne.
  - by rewrite bool_decide_false.
Qed.

Lemma notify_loop (snap : ConfigSnapshot) (L : list (nat * nat)) (x : Manager) :
  let x' := (forM_ L (λ '(_, c), try_send c snap) x).2 in
  stateCh x' = stateCh x ∧ proxies x' = proxies x ∧ watchers x' = watchers x ∧
  states x' = states x ∧ next_chan x' = next_chan x ∧ trace x' = trace x ∧
  ∀ d, chans x' !! d = if decide (d ∈ L.*2) then offer snap <$> chans x !! d
                       else chans x !! d.
Proof.
  revert x. induction L as [|[i c] L IH]; intros x.
  { simpl. repeat split;
      try (intros d; case_decide as Hd; [by apply list_elem_of_In in Hd|reflexivity]). }
  cbv zeta. rewrite forM_cons_snd. simpl.
  destruct (try_send_fields c snap x) as (T1 & T2 & T3 & T4 & T5 & T6 & T7).
  destruct (IH (try_send c snap x).2) as (I1 & I2 & I3 & I4 & I5 & I6 & I7).
  repeat split; try congruence.
  intros d. rewrite I7, T7. destruct (decide (d = c)) as [->|Hne].
  - destruct (decide (c = c)) as [_|]; [|congruence].
    lazymatch goal with |- context [@decide (c ∈ c :: ?l) ?D] =>
      destruct (@decide (c ∈ c :: l) D) as [_|Hn]; [|exfalso; apply Hn; left] end.
    destruct (decide (c ∈ L.*2)); [|reflexivity].
    destruct (chans x !! c); simpl; [|reflexivity]. by rewrite offer_idem.
  - destruct (decide (d = c)) as [|_]; [congruence|].
    repeat case_decide; try reflexivity; exfalso; rewrite elem_of_cons in *; naive_solver.
Qed.

(** ** The effect of [Close] *)

Lemma forM_ext {A} (l : list A) (f g : A → M unit) (x : Manager) :
  (∀ a y, f a y = g a y) → forM_ l f x = forM_ l g x.
Proof.
  intros H. revert x. induction l as [|a l IH]; intros x; [reflexivity|].
  simpl. unfold mbind, M_bind. rewrite H. destruct (g a x) as [[] y]. apply IH.
Qed.

Lemma forM_app {A} (l1 l2 : list A) (f : A → M unit) (x : Manager) :
  forM_ (l1 ++ l2) f x = forM_ l2 f (forM_ l1 f x).2.
Proof.
  revert x. induction l1 as [|a l1 IH]; intros x; [reflexivity|].
  simpl. unfold mbind, M_bind. destruct (f a x) as [[] y]. apply IH.
Qed.

Lemma forM_fmap {A B} (h : A → B) (l : list A) (f : B → M unit) (x : Manager) :
  forM_ (h <$> l) f x = forM_ l (λ a, f (h a)) x.
Proof.
  revert x. induction l as [|a l IH]; intros x; [reflexivity|].
  simpl. unfold mbind, M_bind. destruct (f (h a) x) as [[] y]. apply IH.
Qed.

Lemma forM_nested {A B} (L : list A) (g : A → list B) (f : B → M unit) (x : Manager) :
  forM_ L (λ a, forM_ (g a) f) x = forM_ (L ≫= g) f x.
Proof.
  revert x. induction L as [|a L IH]; intros x; [reflexivity|].
  simpl. rewrite forM_app. unfold mbind, M_bind.
  destruct (forM_ (g a) f x) as [[] y]. apply IH.
Qed.

Lemma closed_chan_idem (o : option chan_state) :
  closed_chan <$> (closed_chan <$> o) = closed_chan <$> o.
Proof. by destruct o. Qed.

(** Cancelling a list of registrations in turn. *)
Lemma close_pairs_loop (K : list (string * nat)) (x : Manager) :
  let x' := (forM_ K (λ '(p, i), closeWatchLocked p i) x).2 in
  stateCh x' = stateCh x ∧ proxies x' = proxies x ∧ states x' = states x ∧
  (∀ q j, watcher_chan x' q j =
            if bool_decide ((q, j) ∈ K) then None else watcher_chan x q j) ∧
  (∀ c, chans x' !! c = chans x !! c ∨ chans x' !! c = closed_chan <$> chans x !! c) ∧
  (∀ q j c, (q, j) ∈ K → watcher_chan x q j = Some c →
     chans x' !! c = closed_chan <$> chans x !! c) ∧
  (∀ c, (∀ q j, (q, j) ∈ K → watcher_chan x q j ≠ Some c) → chans x' !! c = chans x !! c).
Proof.
  revert x. induction K as [|[p i] K IH]; intros x.
  { simpl. repeat split.
    - intros c. by left.
    - intros q j c Hin. by apply list_elem_of_In in Hin. }
  cbv zeta. rewrite forM_cons_snd. simpl.
  destruct (closeWatchLocked_fields p i x) as (F1 & F2 & F3 & _ & F5 & F6 & _).
  set (x1 := (closeWatchLocked p i x).2) in *.
  destruct (IH x1) as (I1 & I2 & I3 & I4 & I5 & I6 & I7).
  set (x' := (forM_ K (λ '(p, i), closeWatchLocked p i) x1).2) in *.
  assert (H1 : ∀ c, chans x1 !! c = chans x !! c ∨ chans x1 !! c = closed_chan <$> chans x !! c).
  { intros c. rewrite F6. destruct (watcher_chan x p i) as [c0|]; [|by left].
    destruct (decide (c = c0)) as [->|Hne]; [right; apply lookup_alter_eq|].
    left. by rewrite lookup_alter_ne. }
  assert (H2 : ∀ c, chans x' !! c = chans x !! c ∨ chans x' !! c = closed_chan <$> chans x !! c).
  { intros c. destruct (I5 c) as [->| ->]; destruct (H1 c) as [->| ->];
      rewrite ?closed_chan_idem; auto. }
  repeat split; try congruence.
  - intros q j. rewrite I4, F5.
    repeat case_bool_decide; try reflexivity; exfalso; rewrite elem_of_cons in *; naive_solver.
  - exact H2.
  - intros q j c Hin Hc. destruct (decide ((q, j) = (p, i))) as [[= -> ->]|Hne].
    + assert (E1 : chans x1 !! c = closed_chan <$> chans x !! c).
      { rewrite F6, Hc. apply lookup_alter_eq. }
      destruct (I5 c) as [->| ->]; rewrite E1; [reflexivity|apply closed_chan_idem].
    + apply elem_of_cons in Hin as [?|Hin]; [contradiction|].
      rewrite (I6 q j c Hin); [|rewrite F5, bool_decide_false by naive_solver; exact Hc].
      destruct (H1 c) as [->| ->]; [reflexivity|apply closed_chan_idem].
  - intros c Hc. rewrite I7.
    + rewrite F6. destruct (watcher_chan x p i) as [c0|] eqn:Hpi; [|reflexivity].
      rewrite lookup_alter_ne; [reflexivity|]. intros ->. apply (Hc p i); [left|exact Hpi].
    + intros q j Hin. rewrite F5. case_bool_decide; [discriminate|].
      apply Hc. by right.
Qed.

Lemma close_proxies_states (L : list (string * nat)) (x : Manager) :
  let x' := (forM_ L (λ '(proxyID, h),
      state_Close h ;; modify (λ m, set_proxies (delete proxyID (proxies m)) m)) x).2 in
  chans x' = chans x ∧
  ∀ h, states x' !! h = if decide (h ∈ L.*2) then close_st <$> states x !! h
                        else states x !! h.
Proof.
  revert x. induction L as [|[p h0] L IH]; intros x.
  { simpl. split; [reflexivity|]. intros h.
    try (case_decide as Hh; [by apply list_elem_of_In in Hh|]). reflexivity. }
  cbv zeta. rewrite forM_cons_snd.
  lazymatch goal with |- context [forM_ _ _ (?c x).2] => set (x1 := (c x).2) end.
  assert (E1 : chans x1 = chans x ∧ states x1 = alter close_st h0 (states x)).
  { subst x1. unfold state_Close, update_state. run_M. split; reflexivity. }
  destruct E1 as [E1c E1s]. destruct (IH x1) as [I1 I2].
  split; [congruence|]. intros h. rewrite I2, E1s. simpl.
  destruct (decide (h = h0)) as [->|Hne].
  - rewrite lookup_alter_eq.
    lazymatch goal with |- context [@decide (h0 ∈ h0 :: ?l) ?D] =>
      destruct (@decide (h0 ∈ h0 :: l) D) as [_|Hn]; [|exfalso; apply Hn; left] end.
    case_decide; [|reflexivity]. destruct (states x !! h0); reflexivity.
  - rewrite lookup_alter_ne by congruence.
    repeat case_decide; try reflexivity; exfalso; rewrite elem_of_cons in *; naive_solver.
Qed.

Section CloseEffect.
Variable range_order : ∀ A, list A → list A.
Arguments range_order {A} _.
Hypothesis range_order_perm : ∀ A (l : list A), range_order l ≡ₚ l.

Lemma close_watchers_phase (x0 : Manager) :
  let x1 := (forM_ (range_order (map_to_list (watchers x0))) (λ '(proxyID, ws),
               forM_ (range_order (map_to_list ws)) (λ '(idx, _), closeWatchLocked proxyID idx))
               x0).2 in
  stateCh x1 = stateCh x0 ∧ proxies x1 = proxies x0 ∧ states x1 = states x0 ∧
  (∀ q j, watcher_chan x1 q j = None) ∧
  (∀ p i c, watcher_chan x0 p i = Some c → chans x1 !! c = closed_chan <$> chans x0 !! c) ∧
  (∀ c, (∀ p i, watcher_chan x0 p i ≠ Some c) → chans x1 !! c = chans x0 !! c).
Proof.
  set (g := λ e : string * gmap nat nat,
              (λ '(i, _), (e.1, i)) <$> range_order (map_to_list e.2) : list (string * nat)).
  set (K := range_order (map_to_list (watchers x0)) ≫= g).
  assert (E : ∀ y, forM_ (range_order (map_to_list (watchers x0))) (λ '(proxyID, ws),
                  forM_ (range_order (map_to_list ws)) (λ '(idx, _), closeWatchLocked proxyID idx))
                  y = forM_ K (λ '(p, i), closeWatchLocked p i) y).
  { intros y. subst K. rewrite <- forM_nested. apply forM_ext.
    intros [p ws] z. subst g. simpl. rewrite forM_fmap. apply forM_ext.
    intros [i c] w. reflexivity. }
  assert (HK : ∀ q j, (q, j) ∈ K ↔ is_Some (watcher_chan x0 q j)).
  { intros q j. subst K g. rewrite list_elem_of_bind. split.
    - intros ([p ws] & Hin & Hp). simpl in Hin.
      rewrite (range_order_perm _ (map_to_list (watchers x0))) in Hp.
      apply elem_of_map_to_list in Hp.
      apply list_elem_of_fmap in Hin as [[i c] [Heq Hi]]. injection Heq as -> ->.
      rewrite (range_order_perm _ (map_to_list ws)) in Hi. apply elem_of_map_to_list in Hi.
      unfold watcher_chan. rewrite Hp. simpl. by eexists.
    - intros [c Hc]. unfold watcher_chan in Hc.
      destruct (watchers x0 !! q) as [ws|] eqn:Hq; simpl in Hc; [|discriminate].
      exists (q, ws). split.
      + apply (list_elem_of_fmap_2' (λ '(i, _), (q, i)) _ (j, c)); [|reflexivity].
        rewrite (range_order_perm _ (map_to_list ws)). by apply elem_of_map_to_list.
      + rewrite (range_order_perm _ (map_to_list (watchers x0))).
        by apply elem_of_map_to_list. }
  cbv zeta. rewrite E.
  destruct (close_pairs_loop K x0) as (P1 & P2 & P3 & P4 & _ & P6 & P7).
  split; [exact P1|]. split; [exact P2|]. split; [exact P3|]. split.
  - intros q j. rewrite P4. case_bool_decide as Hin; [reflexivity|].
    destruct (watcher_chan x0 q j) eqn:Hc; [|reflexivity].
    exfalso. apply Hin, HK. rewrite Hc. by eexists.
  - split.
    + intros p i c Hc. apply (P6 p i c); [apply HK; rewrite Hc; by eexists|exact Hc].
    + intros c Hc. apply P7. intros q j _. apply Hc.
Qed.
End CloseEffect.

(** ** Building a watch state, the [Run] loop, cancellation *)

Lemma ensure_create_outcome (newState_fails : NodeService → string → bool)
    (watch_fails : state → bool) (ns : NodeService) (token : string) (m1 : Manager) :
  let '(err, m') := ensure_create newState_fails watch_fails ns token m1 in
  let h := next_state m1 in
  let st := mkState ns token false false None in
  (err = None ↔ newState_fails ns token = false ∧ watch_fails st = false) ∧
  (err = None →
     proxies m' = <[ID ns := h]> (proxies m1) ∧ states m' !! h = Some (start_st st) ∧
     trace m' = trace m1 ++ [EvNewState h; EvStateWatch h; EvGo h]) ∧
  (err ≠ None →
     proxies m' = proxies m1 ∧ ∃ added, trace m' = trace m1 ++ added ∧ ∀ h', EvGo h' ∉ added).
Proof.
  rewrite ensure_create_eq.
  destruct (newState_fails ns token) eqn:Hn.
  { split; [split; [discriminate|intros [? _]; discriminate]|]. split; [discriminate|].
    intros _. split; [reflexivity|]. exists []. rewrite app_nil_r.
    split; [reflexivity|]. intros h' Hin. by apply list_elem_of_In in Hin. }
  cbv zeta. destruct (watch_fails _) eqn:Hw; simpl.
  - split; [split; [discriminate|intros [_ ?]; discriminate]|]. split; [discriminate|].
    intros _. split; [reflexivity|]. eexists; split; [reflexivity|].
    intros h' Hin. apply elem_of_cons in Hin as [Hin|Hin]; [discriminate|].
    apply elem_of_cons in Hin as [Hin|Hin]; [discriminate|]. by apply list_elem_of_In in Hin.
  - split; [split; [intros _; by split|reflexivity]|]. split; [|intros Hne; by exfalso].
    intros _. split; [reflexivity|]. split; [apply lookup_insert_eq|reflexivity].
Qed.

Lemma run_loop_trace (Changed : state → NodeService → string → bool)
    (newState_fails : NodeService → string → bool) (watch_fails : state → bool)
    (range_order : ∀ A, list A → list A) (services : Registry) (wakes : list wake)
    (m : Manager) :
  let '(r, m') := run_loop Changed newState_fails watch_fails range_order services wakes m in
  (r = RunReturned None ↔ WClosed ∈ wakes) ∧ (r = RunBlocked ↔ WClosed ∉ wakes) ∧
  appends pass_event m m'.
Proof.
  revert services m. induction wakes as [|w wakes IH]; intros services m; simpl;
    unfold mbind, M_bind;
    pose proof (proj2 (reconcile_pass_step Changed newState_fails watch_fails range_order
                         services m)) as Hp;
    destruct (reconcile _ _ _ _ _ m) as [[] m1]; simpl in Hp.
  - split; [split; [discriminate|intros Hin; by apply list_elem_of_In in Hin]|].
    split; [split; [intros _ Hin; by apply list_elem_of_In in Hin|reflexivity]|exact Hp].
  - destruct w as [services'|].
    + specialize (IH services' m1).
      destruct (run_loop _ _ _ _ services' wakes m1) as [r m'].
      destruct IH as (IH1 & IH2 & IH3).
      split; [rewrite IH1, elem_of_cons; split; [by right|intros [?|?]; [discriminate|done]]|].
      split; [rewrite IH2, elem_of_cons; split;
                [intros Hn [?|?]; [discriminate|done]|intros Hn Hin; apply Hn; by right]|].
      etrans; eassumption.
    + split; [split; [intros _; left|reflexivity]|].
      split; [split; [discriminate|intros Hn; exfalso; apply Hn; left]|exact Hp].
Qed.

Lemma closeWatchLocked_absent (p : string) (i : nat) (m : Manager) :
  watcher_chan m p i = None → closeWatchLocked p i m = (tt, m).
Proof.
  intros Hn. unfold closeWatchLocked. run_M. unfold watcher_chan in Hn.
  destruct (watchers m !! p) as [ws|]; simpl in Hn; [|reflexivity]. by rewrite Hn.
Qed.

(** ** Further properties of the manager *)

(** X1: from a manager returned by [NewManager], after any sequence of
    operations (Watch, cancel, notify, reconciliation passes, Close,
    receives, new snapshots) and whatever order the map ranges take,
    every channel registered in [watchers] is allocated and open, and no
    two registrations share a channel: [notify] only sends on open
    channels and a cancel only closes an open channel. *)
Theorem watcher_chans_open (cfg : ManagerConfig) (m0 : Manager)
    (Changed : state → NodeService → string → bool)
    (newState_fails : NodeService → string → bool) (watch_fails : state → bool)
    (range_order : ∀ A, list A → list A) (os : list op) :
  (NewManager_cfg cfg).1 = Some m0 →
  let m := (exec_ops Changed newState_fails watch_fails range_order os m0).2 in
  (∀ p i c, watcher_chan m p i = Some c →
     ∃ ch, chans m !! c = Some ch ∧ ch_closed ch = false) ∧
  (∀ p i q j c, watcher_chan m p i = Some c → watcher_chan m q j = Some c →
     p = q ∧ i = j).
Proof.
  intros H0. cbv zeta.
  pose proof (exec_ops_ok Changed newState_fails watch_fails range_order os m0
                (NewManager_cfg_ok cfg m0 H0)) as Hok.
  split; [apply (ok_open _ Hok)|apply (ok_inj _ Hok)].
Qed.

(** X2: in the same executions no watcher channel is closed twice: the
    [close(ch)] calls the trace records name pairwise distinct channels,
    and they are exactly the channels that are closed. *)
Theorem chans_closed_once (cfg : ManagerConfig) (m0 : Manager)
    (Changed : state → NodeService → string → bool)
    (newState_fails : NodeService → string → bool) (watch_fails : state → bool)
    (range_order : ∀ A, list A → list A) (os : list op) :
  (NewManager_cfg cfg).1 = Some m0 →
  let m := (exec_ops Changed newState_fails watch_fails range_order os m0).2 in
  NoDup (chan_closes (trace m)) ∧
  ∀ c, c ∈ chan_closes (trace m) ↔ ∃ ch, chans m !! c = Some ch ∧ ch_closed ch = true.
Proof.
  intros H0. cbv zeta.
  pose proof (exec_ops_ok Changed newState_fails watch_fails range_order os m0
                (NewManager_cfg_ok cfg m0 H0)) as Hok.
  split; [apply (ok_closes_nodup _ Hok)|apply (ok_closes _ Hok)].
Qed.

(** X3: in the same executions [close(m.stateCh)] happens at most once:
    the trace records it once if [m.stateCh] is nil, and never while it
    is set. *)
Theorem stateCh_closed_once (cfg : ManagerConfig) (m0 : Manager)
    (Changed : state → NodeService → string → bool)
    (newState_fails : NodeService → string → bool) (watch_fails : state → bool)
    (range_order : ∀ A, list A → list A) (os : list op) :
  (NewManager_cfg cfg).1 = Some m0 →
  let m := (exec_ops Changed newState_fails watch_fails range_order os m0).2 in
  stateCh_closes (trace m) = if stateCh m then 0 else 1.
Proof.
  intros H0. cbv zeta.
  exact (ok_stateCh _ (exec_ops_ok Changed newState_fails watch_fails range_order os m0
                         (NewManager_cfg_ok cfg m0 H0))).
Qed.

(** X4: from a manager returned by [NewManager], after any sequence of
    operations, when map ranges visit entries of the map: every live
    watch state (stream started, not closed) is the one [proxies] tracks
    under its proxy ID, so there is at most one live state per proxy. *)
Theorem reachable_one_live_state (cfg : ManagerConfig) (m0 : Manager)
    (Changed : state → NodeService → string → bool)
    (newState_fails : NodeService → string → bool) (watch_fails : state → bool)
    (range_order : ∀ A, list A → list A)
    (Hsub : ∀ A (l : list A) x, x ∈ range_order A l → x ∈ l) (os : list op) :
  (NewManager_cfg cfg).1 = Some m0 →
  let m := (exec_ops Changed newState_fails watch_fails range_order os m0).2 in
  live_tracked m ∧ at_most_one_live m.
Proof.
  intros H0. cbv zeta.
  assert (Hl0 : live_tracked m0).
  { unfold NewManager_cfg in H0. destruct (_ || _); [discriminate|injection H0 as <-].
    intros h st Hst. simpl in Hst. rewrite ?lookup_empty in Hst. discriminate. }
  pose proof (exec_ops_live Changed newState_fails watch_fails range_order Hsub os m0 Hl0)
    as Hl.
  split; [exact Hl|apply live_tracked_at_most_one, Hl].
Qed.

(** X5: [notify(snap)], when its range visits each watcher once: every
    channel registered for [snap.ProxyID] receives [snap] if its
    one-slot buffer is empty and is left as it is if the buffer is full;
    every other channel, the registries, the watch states and the trace
    are unchanged.  A proxy without watchers gets nothing. *)
Theorem notify_delivery (range_order : ∀ A, list A → list A)
    (Hperm : ∀ A (l : list A), range_order A l ≡ₚ l)
    (snap : ConfigSnapshot) (m : Manager) :
  let m' := (notify range_order snap m).2 in
  watchers m' = watchers m ∧ proxies m' = proxies m ∧ states m' = states m ∧
  next_chan m' = next_chan m ∧ trace m' = trace m ∧
  (∀ i c, watcher_chan m (ProxyID snap) i = Some c →
     chans m' !! c = offer snap <$> chans m !! c) ∧
  (∀ c, (∀ i, watcher_chan m (ProxyID snap) i ≠ Some c) → chans m' !! c = chans m !! c).
Proof.
  cbv zeta. unfold notify, watcher_chan. run_M.
  destruct (watchers m !! ProxyID snap) as [ws|] eqn:Hw; simpl.
  2:{ repeat split; intros; discriminate. }
  set (L := range_order (nat * nat)%type (map_to_list ws)).
  destruct (notify_loop snap L m) as (N1 & N2 & N3 & N4 & N5 & N6 & N7).
  assert (HL : ∀ c, c ∈ L.*2 ↔ ∃ i, ws !! i = Some c).
  { intros c. subst L. rewrite (Hperm _ (map_to_list ws)). split.
    - intros Hc. apply list_elem_of_fmap in Hc as [[i c'] [-> Hin]].
      apply elem_of_map_to_list in Hin. by exists i.
    - intros [i Hi]. apply (list_elem_of_fmap_2' snd _ (i, c)); [|done].
      by apply elem_of_map_to_list. }
  repeat split; try assumption.
  - intros i c Hi. rewrite N7. rewrite decide_True; [reflexivity|]. apply HL. by exists i.
  - intros c Hc. rewrite N7. rewrite decide_False; [reflexivity|].
    rewrite HL. intros [i Hi]. exact (Hc i Hi).
Qed.

(** X6: [Close], when its ranges visit each entry once, sets [stateCh]
    to nil, removes every watcher registration and every tracked proxy;
    it closes exactly the channels registered as watchers, keeping what
    they buffer, and closes exactly the watch states tracked in
    [proxies]; every other channel and state is left as it is. *)
Theorem Close_effect (range_order : ∀ A, list A → list A)
    (Hperm : ∀ A (l : list A), range_order A l ≡ₚ l) (m : Manager) :
  let m' := (Close range_order m).2 in
  stateCh m' = false ∧ proxies m' = ∅ ∧ (∀ p i, watcher_chan m' p i = None) ∧
  (∀ p i c, watcher_chan m p i = Some c → chans m' !! c = closed_chan <$> chans m !! c) ∧
  (∀ c, (∀ p i, watcher_chan m p i ≠ Some c) → chans m' !! c = chans m !! c) ∧
  (∀ p h, proxies m !! p = Some h → states m' !! h = close_st <$> states m !! h) ∧
  (∀ h, (∀ p, proxies m !! p ≠ Some h) → states m' !! h = states m !! h).
Proof.
  cbv zeta.
  set (m0 := (if stateCh m then emit EvCloseStateCh ;; modify (set_stateCh false)
              else skip) m : unit * Manager).
  assert (H0 : stateCh m0.2 = false ∧ proxies m0.2 = proxies m ∧
               watchers m0.2 = watchers m ∧ chans m0.2 = chans m ∧ states m0.2 = states m).
  { subst m0. destruct (stateCh m) eqn:Hs; run_M; repeat split; exact Hs. }
  unfold Close. run_M. fold m0. destruct m0 as [[] x0]. simpl in H0.
  destruct H0 as (H0sc & H0p & H0w & H0c & H0s).
  assert (Hwc0 : ∀ p i, watcher_chan x0 p i = watcher_chan m p i).
  { intros p i. unfold watcher_chan. by rewrite H0w. }
  destruct (close_watchers_phase range_order Hperm x0) as (W1 & W2 & W3 & W4 & W5 & W6).
  cbv zeta in W1, W2, W3, W4, W5, W6.
  lazymatch goal with |- context [forM_ ?L ?f x0] =>
    destruct (forM_ L f x0) as [[] x1] eqn:E1 end.
  simpl in W1, W2, W3, W4, W5, W6.
  set (P := range_order _ (map_to_list (proxies x1))).
  destruct (close_proxies_loop P x1) as (P1 & P2 & P3).
  destruct (close_proxies_states P x1) as (S1 & S2).
  lazymatch goal with |- context [forM_ P ?f x1] =>
    destruct (forM_ P f x1) as [[] x2] eqn:E2 end.
  lazymatch type of P1 with context [(forM_ P ?f x1).2] =>
    assert (E2' : (forM_ P f x1).2 = x2)
      by (etransitivity; [|exact (f_equal snd E2)]; reflexivity) end.
  rewrite E2' in P1, P2, P3, S1, S2. simpl.
  assert (HP : ∀ h, h ∈ P.*2 ↔ ∃ p, proxies m !! p = Some h).
  { intros h. subst P. rewrite (Hperm _ (map_to_list (proxies x1))), W2, H0p. split.
    - intros Hh. apply list_elem_of_fmap in Hh as [[p h'] [-> Hin]].
      apply elem_of_map_to_list in Hin. by exists p.
    - intros [p Hp]. apply (list_elem_of_fmap_2' snd _ (p, h)); [|reflexivity].
      by apply elem_of_map_to_list. }
  split; [congruence|]. split.
  { apply map_empty. intros q. rewrite P3. case_decide as Hq; [done|].
    destruct (proxies x1 !! q) as [h|] eqn:Hh; [|done].
    exfalso. apply Hq. apply (list_elem_of_fmap_2' fst _ (q, h)); [|done].
    subst P. rewrite (Hperm _ (map_to_list (proxies x1))).
    by apply elem_of_map_to_list. }
  split.
  - intros p i. unfold watcher_chan. rewrite P2. apply W4.
  - split; [|split; [|split]].
    + intros p i c Hc. rewrite S1, (W5 p i c) by (rewrite Hwc0; exact Hc). by rewrite H0c.
    + intros c Hc. rewrite S1, W6, H0c; [reflexivity|]. intros p i. rewrite Hwc0. apply Hc.
    + intros p h Hp. rewrite S2, W3, H0s. rewrite decide_True; [reflexivity|].
      apply HP. by exists p.
    + intros h Hh. rewrite S2, W3, H0s. rewrite decide_False; [reflexivity|].
      rewrite HP. intros [p Hp]. exact (Hh p Hp).
Qed.

(** X7: when [ensureProxyServiceLocked] builds a new state ([ns.ID]
    untracked, or its state reports a change), it returns nil exactly
    when neither [newState] nor [state.Watch] fails.  On nil, [ns.ID] is
    tracked under the fresh state, whose stream is started, and the last
    calls are newState, Watch and the start of the forwarding goroutine.
    On an error, [proxies] is left as it was and no goroutine is started. *)
Theorem ensureProxyServiceLocked_rebuild (Changed : state → NodeService → string → bool)
    (newState_fails : NodeService → string → bool) (watch_fails : state → bool)
    (ns : NodeService) (token : string) (m : Manager) :
  rebuilds Changed ns token m = true →
  let '(err, m') := ensureProxyServiceLocked Changed newState_fails watch_fails ns token m in
  let h := next_state m in
  let st := mkState ns token false false None in
  (err = None ↔ newState_fails ns token = false ∧ watch_fails st = false) ∧
  (err = None →
     proxies m' = <[ID ns := h]> (proxies m) ∧ states m' !! h = Some (start_st st) ∧
     ∃ pre, trace m' = trace m ++ pre ++ [EvNewState h; EvStateWatch h; EvGo h]) ∧
  (err ≠ None →
     proxies m' = proxies m ∧ ∃ added, trace m' = trace m ++ added ∧ ∀ h', EvGo h' ∉ added).
Proof.
  intros Hr. unfold rebuilds in Hr. unfold ensureProxyServiceLocked. run_M.
  destruct (proxies m !! ID ns) as [h0|] eqn:Hp.
  2:{ pose proof (ensure_create_outcome newState_fails watch_fails ns token m) as H.
      destruct (ensure_create _ _ _ _ m) as [err m']. cbv zeta in H |- *.
      destruct H as (H1 & H2 & H3). split; [exact H1|]. split.
      - intros He. destruct (H2 He) as (-> & -> & ->). split; [done|]. split; [done|].
        by exists [].
      - exact H3. }
  destruct (states m !! h0) as [st0|] eqn:Hs.
  2:{ pose proof (ensure_create_outcome newState_fails watch_fails ns token m) as H.
      destruct (ensure_create _ _ _ _ m) as [err m']. cbv zeta in H |- *.
      destruct H as (H1 & H2 & H3). split; [exact H1|]. split.
      - intros He. destruct (H2 He) as (-> & -> & ->). split; [done|]. split; [done|].
        by exists [].
      - exact H3. }
  rewrite Hr. unfold state_Close, update_state. run_M.
  match goal with |- context [ensure_create _ _ _ _ ?mc] => set (m_closed := mc) end.
  pose proof (ensure_create_outcome newState_fails watch_fails ns token m_closed) as H.
  destruct (ensure_create _ _ _ _ m_closed) as [err m']. cbv zeta in H |- *.
  destruct H as (H1 & H2 & H3). simpl in H1, H2, H3. split; [exact H1|]. split.
  - intros He. destruct (H2 He) as (-> & -> & ->). split; [done|]. split; [done|].
    exists [EvStateClose h0]. by rewrite <- app_assoc.
  - intros He. destruct (H3 He) as (-> & added & -> & Hg). split; [done|].
    exists (EvStateClose h0 :: added). rewrite <- app_assoc. split; [reflexivity|].
    intros h' Hin. apply elem_of_cons in Hin as [Hin|Hin]; [discriminate|exact (Hg h' Hin)].
Qed.

(** X8: [Run] on a manager that is not stopped registers for
    notifications once, then runs reconciliation passes, which only
    record calls of the watch-state part ([newState], [Watch], [Close],
    goroutines, error logs); [StopNotify] is called once, at the end,
    exactly when [Run] returns.  It returns nil exactly when the wake-ups
    include the closing of [stateCh], and keeps waiting otherwise. *)
Theorem Run_notify_pairing (Changed : state → NodeService → string → bool)
    (newState_fails : NodeService → string → bool) (watch_fails : state → bool)
    (range_order : ∀ A, list A → list A) (services : Registry) (wakes : list wake)
    (m : Manager) :
  stateCh m = true →
  let '(r, m') := Run Changed newState_fails watch_fails range_order services wakes m in
  (r = RunReturned None ↔ WClosed ∈ wakes) ∧ (r = RunBlocked ↔ WClosed ∉ wakes) ∧
  stateCh m' = true ∧
  ∃ mid, Forall pass_event mid ∧
    trace m' = trace m ++ [EvNotify] ++ mid ++
               match r with RunReturned _ => [EvStopNotify] | RunBlocked => [] end.
Proof.
  intros Hs. unfold Run. run_M. rewrite Hs. run_M.
  pose proof (run_loop_trace Changed newState_fails watch_fails range_order services wakes
                (add_event EvNotify m)) as H.
  unfold add_event in H.
  destruct (run_loop _ _ _ _ _ _ _) as [r m1]. destruct H as (H1 & H2 & Hs1 & mid & Ht & Hf).
  simpl in Hs1, Ht.
  destruct r as [err|]; run_M.
  - split; [exact H1|]. split; [exact H2|]. split; [congruence|].
    exists mid. split; [exact Hf|]. rewrite Ht. by rewrite <- !app_assoc.
  - split; [exact H1|]. split; [exact H2|]. split; [congruence|].
    exists mid. split; [exact Hf|]. rewrite Ht, app_nil_r. by rewrite <- !app_assoc.
Qed.

(** X9: calling a [CancelFunc] twice in a row is the same as calling it
    once: the second call finds no entry and changes nothing. *)
Theorem cancel_twice (cf : CancelFunc) (m : Manager) :
  (cancel cf ;; cancel cf) m = cancel cf m.
Proof.
  unfold mbind, M_bind. destruct cf as [p i]. unfold cancel. simpl.
  destruct (closeWatchLocked_fields p i m) as (_ & _ & _ & _ & Hwc & _).
  destruct (closeWatchLocked p i m) as [[] m1] eqn:E. simpl in Hwc.
  apply closeWatchLocked_absent. rewrite Hwc. by rewrite bool_decide_true.
Qed.

(** X10: when the identifier [Watch] picks is not already taken in the
    proxy's set and no set is empty, calling the returned cancel function
    right away gives back the watcher registry as it was; the channel
    [Watch] made stays allocated, closed, with whatever [Watch] put in
    its buffer; nothing else but the trace of that close changes. *)
Theorem Watch_cancel_roundtrip (p : string) (m : Manager) :
  no_empty_watcher_sets m →
  default ∅ (watchers m !! p) !! size (default ∅ (watchers m !! p)) = None →
  let '((c, cf), m1) := Watch p m in
  let m2 := (cancel cf m1).2 in
  c = next_chan m ∧ watchers m2 = watchers m ∧ proxies m2 = proxies m ∧
  states m2 = states m ∧ next_chan m2 = S (next_chan m) ∧
  chans m2 = <[c := closed_chan (fresh_chan (current_snapshot m p))]> (chans m) ∧
  trace m2 = trace m ++ [EvChanClose c].
Proof.
  intros Hne Hfree. rewrite Watch_eq. cbv zeta.
  set (ws := default ∅ (watchers m !! p)) in *.
  unfold cancel. simpl.
  rewrite (closeWatchLocked_eq p (size ws) _ (<[size ws := next_chan m]> ws) (next_chan m))
    by (simpl; by rewrite lookup_insert_eq).
  simpl. rewrite delete_insert_eq, (delete_id _ _ Hfree).
  split; [reflexivity|]. split.
  - case_bool_decide as Hsz.
    + apply map_size_empty_iff in Hsz. rewrite delete_insert_eq. apply delete_id.
      destruct (watchers m !! p) as [ws0|] eqn:Hw; [|reflexivity].
      exfalso. exact (Hne p ws0 Hw Hsz).
    + rewrite insert_insert_eq. apply insert_id.
      destruct (watchers m !! p) as [ws0|] eqn:Hw; [reflexivity|].
      exfalso. apply Hsz. reflexivity.
  - repeat split. by rewrite alter_insert_eq.
Qed.

(** X1 on [sample_ops] from [NewManager(full_config)]. *)
Lemma watcher_chans_open_witness :
  (NewManager_cfg full_config).1 = Some NewManager ∧
  let m := (exec_ops changed_by_token (λ _ _, false) (λ _, false) (λ _ l, l)
              sample_ops NewManager).2 in
  (∀ p i c, watcher_chan m p i = Some c →
     ∃ ch, chans m !! c = Some ch ∧ ch_closed ch = false) ∧
  (∀ p i q j c, watcher_chan m p i = Some c → watcher_chan m q j = Some c →
     p = q ∧ i = j).
Proof.
  split; [reflexivity|].
  apply (watcher_chans_open full_config NewManager). reflexivity.
Defined.

(** X2 on [sample_ops] from [NewManager(full_config)]. *)
Lemma chans_closed_once_witness :
  (NewManager_cfg full_config).1 = Some NewManager ∧
  let m := (exec_ops changed_by_token (λ _ _, false) (λ _, false) (λ _ l, l)
              sample_ops NewManager).2 in
  NoDup (chan_closes (trace m)) ∧
  ∀ c, c ∈ chan_closes (trace m) ↔ ∃ ch, chans m !! c = Some ch ∧ ch_closed ch = true.
Proof.
  split; [reflexivity|].
  apply (chans_closed_once full_config NewManager). reflexivity.
Defined.

(** X3 on [sample_ops] from [NewManager(full_config)]. *)
Lemma stateCh_closed_once_witness :
  (NewManager_cfg full_config).1 = Some NewManager ∧
  let m := (exec_ops changed_by_token (λ _ _, false) (λ _, false) (λ _ l, l)
              sample_ops NewManager).2 in
  stateCh_closes (trace m) = if stateCh m then 0 else 1.
Proof.
  split; [reflexivity|].
  apply (stateCh_closed_once full_config NewManager). reflexivity.
Defined.

(** X4 on [sample_ops] from [NewManager(full_config)]. *)
Lemma reachable_one_live_state_witness :
  (NewManager_cfg full_config).1 = Some NewManager ∧
  let m := (exec_ops changed_by_token (λ _ _, false) (λ _, false) (λ _ l, l)
              sample_ops NewManager).2 in
  live_tracked m ∧ at_most_one_live m.
Proof.
  split; [reflexivity|].
  apply (reachable_one_live_state full_config NewManager changed_by_token
           (λ _ _, false) (λ _, false) (λ _ l, l)).
  - intros A l x Hx. exact Hx.
  - reflexivity.
Defined.

(** X5 on the two watchers of "svc-a". *)
Lemma notify_delivery_witness :
  let snap := mkConfigSnapshot "svc-a" 1 in
  let m' := (notify (λ _ l, l) snap two_watchers).2 in
  watchers m' = watchers two_watchers ∧ proxies m' = proxies two_watchers ∧
  states m' = states two_watchers ∧ next_chan m' = next_chan two_watchers ∧
  trace m' = trace two_watchers ∧
  (∀ i c, watcher_chan two_watchers (ProxyID snap) i = Some c →
     chans m' !! c = offer snap <$> chans two_watchers !! c) ∧
  (∀ c, (∀ i, watcher_chan two_watchers (ProxyID snap) i ≠ Some c) →
     chans m' !! c = chans two_watchers !! c).
Proof.
  apply (notify_delivery (λ _ l, l)). intros A l. reflexivity.
Defined.

(** X6 on the two watchers of "svc-a". *)
Lemma Close_effect_witness :
  let m := two_watchers in
  let m' := (Close (λ _ l, l) m).2 in
  stateCh m' = false ∧ proxies m' = ∅ ∧ (∀ p i, watcher_chan m' p i = None) ∧
  (∀ p i c, watcher_chan m p i = Some c → chans m' !! c = closed_chan <$> chans m !! c) ∧
  (∀ c, (∀ p i, watcher_chan m p i ≠ Some c) → chans m' !! c = chans m !! c) ∧
  (∀ p h, proxies m !! p = Some h → states m' !! h = close_st <$> states m !! h) ∧
  (∀ h, (∀ p, proxies m !! p ≠ Some h) → states m' !! h = states m !! h).
Proof.
  apply (Close_effect (λ _ l, l)). intros A l. reflexivity.
Defined.

(** X7 at "web-sidecar", tracked with token "T1" and ensured with "T2". *)
Lemma ensureProxyServiceLocked_rebuild_witness :
  rebuilds changed_by_token web_sidecar "T2" tracked_web = true ∧
  let '(err, m') := ensureProxyServiceLocked changed_by_token (λ _ _, false) (λ _, false)
                      web_sidecar "T2" tracked_web in
  let h := next_state tracked_web in
  let st := mkState web_sidecar "T2" false false None in
  (err = None ↔ false = false ∧ false = false) ∧
  (err = None →
     proxies m' = <[ID web_sidecar := h]> (proxies tracked_web) ∧
     states m' !! h = Some (start_st st) ∧
     ∃ pre, trace m' = trace tracked_web ++ pre ++ [EvNewState h; EvStateWatch h; EvGo h]) ∧
  (err ≠ None →
     proxies m' = proxies tracked_web ∧
     ∃ added, trace m' = trace tracked_web ++ added ∧ ∀ h', EvGo h' ∉ added).
Proof.
  split; [vm_compute; reflexivity|].
  apply (ensureProxyServiceLocked_rebuild changed_by_token (λ _ _, false) (λ _, false)).
  vm_compute. reflexivity.
Defined.

(** X8 on a fresh manager: one pass over [mixed_registry], then the
    closing of [stateCh]. *)
Lemma Run_notify_pairing_witness :
  stateCh NewManager = true ∧
  let wakes := [WSignal mixed_registry; WClosed] in
  let '(r, m') := Run changed_by_token (λ _ _, false) (λ _, false) (λ _ l, l)
                    mixed_registry wakes NewManager in
  (r = RunReturned None ↔ WClosed ∈ wakes) ∧ (r = RunBlocked ↔ WClosed ∉ wakes) ∧
  stateCh m' = true ∧
  ∃ mid, Forall pass_event mid ∧
    trace m' = trace NewManager ++ [EvNotify] ++ mid ++
               match r with RunReturned _ => [EvStopNotify] | RunBlocked => [] end.
Proof.
  split; [reflexivity|].
  apply (Run_notify_pairing changed_by_token (λ _ _, false) (λ _, false) (λ _ l, l)).
  reflexivity.
Defined.

(** X10 at "svc-a" on the manager with two watchers of it. *)
Lemma Watch_cancel_roundtrip_witness :
  no_empty_watcher_sets two_watchers ∧
  default ∅ (watchers two_watchers !! "svc-a")
    !! size (default ∅ (watchers two_watchers !! "svc-a")) = None ∧
  let '((c, cf), m1) := Watch "svc-a" two_watchers in
  let m2 := (cancel cf m1).2 in
  c = next_chan two_watchers ∧ watchers m2 = watchers two_watchers ∧
  proxies m2 = proxies two_watchers ∧ states m2 = states two_watchers ∧
  next_chan m2 = S (next_chan two_watchers) ∧
  chans m2 = <[c := closed_chan (fresh_chan (current_snapshot two_watchers "svc-a"))]>
               (chans two_watchers) ∧
  trace m2 = trace two_watchers ++ [EvChanClose c].
Proof.
  split; [decide_by_eval|]. split; [vm_compute; reflexivity|].
  apply Watch_cancel_roundtrip.
  - decide_by_eval.
  - vm_compute. reflexivity.
Defined.
